(** * CFRPlusMatrix: the matrix-game solver of [CFRPlusMatrix.cpp]

    A shallow embedding of class [MatrixGame] (Fictitious Play, CFR and CFR+
    on a random zero-sum matrix game) and the properties of its update rules.

    Numbers.  The class is embedded twice, method by method.  In module
    [B64] a C++ [double] is an IEEE 754 binary64 number (the primitive
    [float]): every sum, product, quotient and comparison is the rounded one
    the program performs, in the order the program performs it, with signed
    zeros, infinities and NaN.  Outside [B64] a [double] is read as an exact
    rational ([Q]), with rounding, infinities and NaN left out: an
    idealisation, kept for the properties that do not depend on rounding
    (which cells a method writes, in which order, with which sign, within
    which bounds); the statements that do depend on it are made on [B64].
    [int iterationCount] is a 32-bit two's-complement integer kept in [Z]; a
    vector index and the game size are natural numbers, and the index
    arithmetic [a * size + b] is the exact one, which is the program's as
    long as [size * size] is within [int].

    Memory.  [vector<double>] is a list.  Reading a cell is [nth i v 0];
    the constructor sizes every vector ([size] or [size * size] cells) and no
    method resizes one, which is the invariant [sized] below.  The single
    access whose index is computed from data, [strategy[player][bestAction]++],
    is checked: out of range it has no defined behaviour and the method
    yields [None]. *)

From Stdlib Require Import ZArith QArith Qfield List Lia Lqa Bool.
From Stdlib Require Import Floats Uint63.
Import ListNotations.

Open Scope Q_scope.

(** ** Numbers *)

(** [numeric_limits<double>::max()], the largest finite double. *)
Definition DBL_MAX : Q := inject_Z ((2 ^ 53 - 1) * 2 ^ 971).

(** [x < y] on doubles, as a boolean. *)
Definition Qltb (x y : Q) : bool :=
  (Qnum x * QDen y <? Qnum y * QDen x)%Z.

(** [std::max(a, b)]: [(a < b) ? b : a]. *)
Definition fmax (a b : Q) : Q := if Qltb a b then b else a.

(** Conversion [int -> double]. *)
Definition of_int (z : Z) : Q := inject_Z z.

(** [++] on a 32-bit [int], two's complement. *)
Definition wrap32 (z : Z) : Z := ((z + 2 ^ 31) mod 2 ^ 32 - 2 ^ 31)%Z.

(** ** Vectors and loops *)

(** [v[i] = x] on a vector (the length never changes). *)
Fixpoint vset {A : Type} (i : nat) (x : A) (v : list A) : list A :=
  match v, i with
  | [], _ => []
  | _ :: t, O => x :: t
  | h :: t, S j => h :: vset j x t
  end.

(** [for (int i = 0; i < n; i++) s = body i s]. *)
Definition for_range {St : Type} (n : nat) (body : nat -> St -> St) (s : St) : St :=
  fold_left (fun acc i => body i acc) (seq 0 n) s.

(** [vector<double> v(n)]: [n] cells, all zero. *)
Definition vnew (n : nat) : list Q := repeat 0 n.

(** ** The solver state *)

Record MatrixGame : Type := mkGame {
  size : nat;
  iterationCount : Z;
  payoffs : list Q;
  strategy : list Q * list Q;   (* strategy[0], strategy[1] *)
  cfr : list Q * list Q         (* cfr[0], cfr[1] *)
}.

(** [arr[player]] for a two-element array. *)
Definition sel {A : Type} (player : Z) (arr : A * A) : A :=
  if (player =? 0)%Z then fst arr else snd arr.

(** [arr[player] = x]. *)
Definition upd {A : Type} (player : Z) (x : A) (arr : A * A) : A * A :=
  if (player =? 0)%Z then (x, snd arr) else (fst arr, x).

(** [player ^ 1]. *)
Definition other (player : Z) : Z := Z.lxor player 1.

(** ** Construction *)

(** [CreateRandom]: the cells are filled row by row, each from the next draw
    of [double_rnd(rng)]; [rnd k] is the [k]-th draw.  The loop state is the
    vector with the number of draws made so far. *)
Definition CreateRandom (n : nat) (rnd : nat -> Q) (pay : list Q) : list Q :=
  fst (for_range n (fun a st =>
         for_range n (fun b st' =>
           (vset (a * n + b) (rnd (snd st')) (fst st'), S (snd st')))
           st)
         (pay, O)).

(** The constructor [MatrixGame(size, rng)]. *)
Definition MatrixGame_new (n : nat) (rnd : nat -> Q) : MatrixGame :=
  {| size := n;
     iterationCount := 0;
     payoffs := CreateRandom n rnd (vnew (n * n));
     strategy := (vnew n, vnew n);
     cfr := (vnew n, vnew n) |}.

(** ** Const methods *)

Definition GetIterationCount (g : MatrixGame) : Z := iterationCount g.

Definition GetPayoff (g : MatrixGame) (p : Z) (a b : nat) : Q :=
  if (p =? 0)%Z then nth (a * size g + b) (payoffs g) 0
  else - nth (b * size g + a) (payoffs g) 0.

Definition GetNormalizedStrategy (g : MatrixGame) (player : Z) : list Q :=
  let ns := vnew (size g) in
  let sum := for_range (size g)
               (fun i s => s + nth i (sel player (strategy g)) 0) 0 in
  if Qltb 0 sum then
    for_range (size g)
      (fun i v => vset i (nth i (sel player (strategy g)) 0 / sum) v) ns
  else
    for_range (size g)
      (fun i v => vset i (1 / of_int (Z.of_nat (size g))) v) ns.

Definition GetCurrentStrategy (g : MatrixGame) (player : Z) : list Q :=
  let cs := vnew (size g) in
  let sum := for_range (size g)
               (fun i s => s + fmax 0 (nth i (sel player (cfr g)) 0)) 0 in
  if Qltb 0 sum then
    for_range (size g)
      (fun i v =>
         vset i (if Qltb 0 (nth i (sel player (cfr g)) 0)
                 then nth i (sel player (cfr g)) 0 / sum else 0) v) cs
  else
    for_range (size g)
      (fun i v => vset i (1 / of_int (Z.of_nat (size g))) v) cs.

(** The inner loop shared by [BestResponse], [FictitiousPlay], [CFR] and
    [CFRPlus]: [sum = 0; for b: sum += w[b] * GetPayoff(player, a, b)]. *)
Definition payoff_sum (g : MatrixGame) (player : Z) (w : list Q) (a : nat) : Q :=
  for_range (size g) (fun b s => s + nth b w 0 * GetPayoff g player a b) 0.

Definition BestResponse (g : MatrixGame) (player : Z) : Q :=
  let ns := GetNormalizedStrategy g (other player) in
  for_range (size g)
    (fun a maxSum =>
       let sum := payoff_sum g player ns a in
       if Qltb maxSum sum then sum else maxSum)
    (- DBL_MAX).

Definition GetExploitability (g : MatrixGame) : Q :=
  (BestResponse g 0 + BestResponse g 1) / 2.

(** ** Mutating methods

    A method that writes the object is a computation on the solver state
    that either yields a result and the new state, or has no defined
    behaviour ([None]). *)

Definition M (A : Type) : Type := MatrixGame -> option (A * MatrixGame).

Definition ret {A : Type} (x : A) : M A := fun g => Some (x, g).

Definition bind {A B : Type} (m : M A) (k : A -> M B) : M B :=
  fun g => match m g with
           | Some (x, g') => k x g'
           | None => None
           end.

Definition gets {A : Type} (f : MatrixGame -> A) : M A :=
  fun g => Some (f g, g).

Definition modify (f : MatrixGame -> MatrixGame) : M unit :=
  fun g => Some (tt, f g).

Notation "m1 ;; m2" := (bind m1 (fun _ => m2))
  (at level 61, right associativity).

(** The state a computation leaves, when it is defined. *)
Definition exec {A : Type} (m : M A) (g : MatrixGame) : option MatrixGame :=
  match m g with
  | Some (_, g') => Some g'
  | None => None
  end.

Definition set_iterationCount (t : Z) (g : MatrixGame) : MatrixGame :=
  mkGame (size g) t (payoffs g) (strategy g) (cfr g).

Definition set_strategy (player : Z) (v : list Q) (g : MatrixGame) : MatrixGame :=
  mkGame (size g) (iterationCount g) (payoffs g)
         (upd player v (strategy g)) (cfr g).

Definition set_cfr (player : Z) (v : list Q) (g : MatrixGame) : MatrixGame :=
  mkGame (size g) (iterationCount g) (payoffs g)
         (strategy g) (upd player v (cfr g)).

(** [iterationCount++]. *)
Definition tick (g : MatrixGame) : MatrixGame :=
  set_iterationCount (wrap32 (iterationCount g + 1)) g.

(** The search loop of [FictitiousPlay(int)]: the pair [(maxSum, bestAction)]
    after the loop over the actions. *)
Definition best_action (g : MatrixGame) (player : Z) : Q * Z :=
  let ns := GetNormalizedStrategy g (other player) in
  for_range (size g)
    (fun a st =>
       let sum := payoff_sum g player ns a in
       if Qltb (fst st) sum then (sum, Z.of_nat a) else st)
    (- DBL_MAX, (-1)%Z).

(** [FictitiousPlay(int player)]. *)
Definition FictitiousPlay_player (player : Z) : M unit :=
  fun g =>
    let bestAction := snd (best_action g player) in
    let s := sel player (strategy g) in
    if ((0 <=? bestAction)%Z && (Z.to_nat bestAction <? length s)%nat)%bool then
      let i := Z.to_nat bestAction in
      Some (tt, set_strategy player (vset i (nth i s 0 + 1) s) g)
    else None.

(** The first loop of [CFR(int)] and of [CFRPlus(int)] (the same text in
    both): the vector [cfu] and the scalar [ev].  The cell [cfu[a]] is set
    to zero and then accumulates the inner loop, which is [payoff_sum]. *)
Definition cfu_ev (g : MatrixGame) (player : Z) (sp so : list Q) : list Q * Q :=
  for_range (size g)
    (fun a st =>
       let cfu := vset a (payoff_sum g player so a) (fst st) in
       (cfu, snd st + nth a sp 0 * nth a cfu 0))
    (vnew (size g), 0).

(** [CFR(int player)], as the state it leaves. *)
Definition CFR_update (player : Z) (g : MatrixGame) : MatrixGame :=
  let sp := GetCurrentStrategy g player in
  let so := GetCurrentStrategy g (other player) in
  let cfu := fst (cfu_ev g player sp so) in
  let ev := snd (cfu_ev g player sp so) in
  let g1 := set_cfr player
              (for_range (size g)
                 (fun a r => vset a (nth a r 0 + (nth a cfu 0 - ev)) r)
                 (sel player (cfr g))) g in
  set_strategy player
    (for_range (size g)
       (fun a s => vset a (nth a s 0 + nth a sp 0) s)
       (sel player (strategy g1))) g1.

Definition CFR_player (player : Z) : M unit := modify (CFR_update player).

(** [CFRPlus(int player)], as the state it leaves. *)
Definition CFRPlus_update (player : Z) (g : MatrixGame) : MatrixGame :=
  let sp := GetCurrentStrategy g player in
  let so := GetCurrentStrategy g (other player) in
  let cfu := fst (cfu_ev g player sp so) in
  let ev := snd (cfu_ev g player sp so) in
  let g1 := set_cfr player
              (for_range (size g)
                 (fun a r => vset a (fmax 0 (nth a r 0 + nth a cfu 0 - ev)) r)
                 (sel player (cfr g))) g in
  set_strategy player
    (for_range (size g)
       (fun a s =>
          vset a (nth a s 0 + nth a sp 0 * of_int (iterationCount g1)
                                        * of_int (iterationCount g1)) s)
       (sel player (strategy g1))) g1.

Definition CFRPlus_player (player : Z) : M unit := modify (CFRPlus_update player).

(** The public, argument-free overloads. *)
Definition FictitiousPlay : M unit :=
  modify tick ;; FictitiousPlay_player 0 ;; FictitiousPlay_player 1.

Definition CFR : M unit :=
  modify tick ;; CFR_player 0 ;; CFR_player 1.

Definition CFRPlus : M unit :=
  modify tick ;; CFRPlus_player 0 ;; CFRPlus_player 1.

Definition Iteration (algorithm : Z) : M unit :=
  match algorithm with
  | 0%Z => FictitiousPlay
  | 1%Z => CFR
  | _ => CFRPlus
  end.

(** A run of the driver's calls: [Iteration] once per selector of the list. *)
Fixpoint iterate (algs : list Z) (g : MatrixGame) : option MatrixGame :=
  match algs with
  | [] => Some g
  | alg :: rest =>
      match exec (Iteration alg) g with
      | Some g' => iterate rest g'
      | None => None
      end
  end.

(** Calls of a const method: the object is read, never written. *)
Definition GetIterationCount_call : M Z := gets GetIterationCount.
Definition GetExploitability_call : M Q := gets GetExploitability.

(** [n] calls in a row of a method, collecting the results. *)
Fixpoint repeat_call {A : Type} (n : nat) (m : M A) : M (list A) :=
  match n with
  | O => ret []
  | S k => bind m (fun x => bind (repeat_call k m) (fun xs => ret (x :: xs)))
  end.

(** ** The drivers [Run] and [RunMany]

    [Run] loops until the exploitability is at most [epsilon], which may be
    never: the model counts rounds against [fuel]. *)

Inductive outcome (A : Type) : Type :=
| Returned (x : A)   (* the call returns [x] *)
| Undefined          (* the call leaves defined behaviour *)
| OutOfFuel.         (* the loop is still running after [fuel] rounds *)

Arguments Returned {A} x.
Arguments Undefined {A}.
Arguments OutOfFuel {A}.

(** The loop [do { m.Iteration(algorithm); e = m.GetExploitability(); }
    while (e > epsilon)] of [Run], as the solver it leaves. *)
Fixpoint Run_loop (fuel : nat) (algorithm : Z) (epsilon : Q) (m : MatrixGame)
  : outcome MatrixGame :=
  match fuel with
  | O => OutOfFuel
  | S fuel' =>
      match Iteration algorithm m with
      | None => Undefined
      | Some (_, m') =>
          let e := GetExploitability m' in
          if Qltb epsilon e then Run_loop fuel' algorithm epsilon m'
          else Returned m'
      end
  end.

(** [Run(algorithm, size, epsilon, rng)]. *)
Definition Run (fuel : nat) (algorithm : Z) (n : nat) (epsilon : Q)
           (rnd : nat -> Q) : outcome Z :=
  match Run_loop fuel algorithm epsilon (MatrixGame_new n rnd) with
  | Returned m => Returned (GetIterationCount m)
  | Undefined => Undefined
  | OutOfFuel => OutOfFuel
  end.

(** [numeric_limits<int>::max()] and [numeric_limits<int>::min()]. *)
Definition INT_MAX : Z := 2 ^ 31 - 1.
Definition INT_MIN : Z := - 2 ^ 31.

(** The loop of [RunMany] over the runs, as the triple [(min, max, sum)].
    The runs share one generator: a construction takes [size * size] draws,
    so run [i] starts at draw [i * (size * size)]. *)
Definition RunMany_loop (fuel : nat) (runs : nat) (algorithm : Z) (n : nat)
           (epsilon : Q) (rnd : nat -> Q) : outcome (Z * Z * Q) :=
  for_range runs
    (fun i st =>
       match st with
       | Returned (mn, mx, sum) =>
           match Run fuel algorithm n epsilon
                     (fun k => rnd (i * (n * n) + k)%nat) with
           | Returned nit =>
               Returned (Z.min mn nit, Z.max mx nit, sum + of_int nit)
           | Undefined => Undefined
           | OutOfFuel => OutOfFuel
           end
       | Undefined => Undefined
       | OutOfFuel => OutOfFuel
       end)
    (Returned (INT_MAX, INT_MIN, 0)).

(** [RunMany(n, algorithm, size, epsilon)]: the three numbers of its last
    [printf], [min], [max] and [sum / n]. *)
Definition RunMany (fuel : nat) (runs : nat) (algorithm : Z) (n : nat)
           (epsilon : Q) (rnd : nat -> Q) : outcome (Z * Z * Q) :=
  match RunMany_loop fuel runs algorithm n epsilon rnd with
  | Returned (mn, mx, sum) => Returned (mn, mx, sum / of_int (Z.of_nat runs))
  | Undefined => Undefined
  | OutOfFuel => OutOfFuel
  end.

(** ** The same class over binary64

    The definitions above read [double] as an exact rational.  Rounding
    decides some properties (which of two nearly equal sums is the larger,
    whether the entries of a normalised vector add up to 1), so the class is
    embedded a second time with the 64-bit IEEE 754 numbers of the kernel
    ([float], round to nearest even), operation for operation.  In this
    module [0], [1], [+], [*], [/] and [<?] are those of binary64. *)

Module B64.

Local Open Scope float_scope.

(** [numeric_limits<double>::max()]. *)
Definition DBL_MAX : float := 0x1.fffffffffffffp+1023.

(** [std::max(a, b)]: [(a < b) ? b : a]. *)
Definition fmax (a b : float) : float := if a <? b then b else a.

(** Conversion [int -> double] (exact: an [int] has 32 bits). *)
Definition of_int (z : Z) : float :=
  if (z <? 0)%Z then - of_uint63 (Uint63.of_Z (- z))
  else of_uint63 (Uint63.of_Z z).

(** [vector<double> v(n)]: [n] cells, all [+0.0]. *)
Definition vnew (n : nat) : list float := repeat 0 n.

Record MatrixGame : Type := mkGame {
  size : nat;
  iterationCount : Z;
  payoffs : list float;
  strategy : list float * list float;   (* strategy[0], strategy[1] *)
  cfr : list float * list float         (* cfr[0], cfr[1] *)
}.

(** [CreateRandom]; [rnd k] is the [k]-th draw of [double_rnd(rng)]. *)
Definition CreateRandom (n : nat) (rnd : nat -> float) (pay : list float)
  : list float :=
  fst (for_range n (fun a st =>
         for_range n (fun b st' =>
           (vset (a * n + b) (rnd (snd st')) (fst st'), S (snd st')))
           st)
         (pay, O)).

(** The constructor [MatrixGame(size, rng)]. *)
Definition MatrixGame_new (n : nat) (rnd : nat -> float) : MatrixGame :=
  {| size := n;
     iterationCount := 0;
     payoffs := CreateRandom n rnd (vnew (n * n));
     strategy := (vnew n, vnew n);
     cfr := (vnew n, vnew n) |}.

Definition GetIterationCount (g : MatrixGame) : Z := iterationCount g.

Definition GetPayoff (g : MatrixGame) (p : Z) (a b : nat) : float :=
  if (p =? 0)%Z then nth (a * size g + b) (payoffs g) 0
  else - nth (b * size g + a) (payoffs g) 0.

Definition GetNormalizedStrategy (g : MatrixGame) (player : Z) : list float :=
  let ns := vnew (size g) in
  let sum := for_range (size g)
               (fun i s => s + nth i (sel player (strategy g)) 0) 0 in
  if 0 <? sum then
    for_range (size g)
      (fun i v => vset i (nth i (sel player (strategy g)) 0 / sum) v) ns
  else
    for_range (size g)
      (fun i v => vset i (1 / of_int (Z.of_nat (size g))) v) ns.

Definition GetCurrentStrategy (g : MatrixGame) (player : Z) : list float :=
  let cs := vnew (size g) in
  let sum := for_range (size g)
               (fun i s => s + fmax 0 (nth i (sel player (cfr g)) 0)) 0 in
  if 0 <? sum then
    for_range (size g)
      (fun i v =>
         vset i (if 0 <? nth i (sel player (cfr g)) 0
                 then nth i (sel player (cfr g)) 0 / sum else 0) v) cs
  else
    for_range (size g)
      (fun i v => vset i (1 / of_int (Z.of_nat (size g))) v) cs.

(** The inner loop [sum = 0; for b: sum += w[b] * GetPayoff(player, a, b)]. *)
Definition payoff_sum (g : MatrixGame) (player : Z) (w : list float) (a : nat)
  : float :=
  for_range (size g) (fun b s => s + nth b w 0 * GetPayoff g player a b) 0.

Definition BestResponse (g : MatrixGame) (player : Z) : float :=
  let ns := GetNormalizedStrategy g (other player) in
  for_range (size g)
    (fun a maxSum =>
       let sum := payoff_sum g player ns a in
       if maxSum <? sum then sum else maxSum)
    (- DBL_MAX).

Definition GetExploitability (g : MatrixGame) : float :=
  (BestResponse g 0 + BestResponse g 1) / 2.

(** Methods that write the object: a result and the new state, or no defined
    behaviour. *)
Definition M (A : Type) : Type := MatrixGame -> option (A * MatrixGame).

Definition bind {A B : Type} (m : M A) (k : A -> M B) : M B :=
  fun g => match m g with
           | Some (x, g') => k x g'
           | None => None
           end.

Definition modify (f : MatrixGame -> MatrixGame) : M unit :=
  fun g => Some (tt, f g).

Definition exec {A : Type} (m : M A) (g : MatrixGame) : option MatrixGame :=
  match m g with
  | Some (_, g') => Some g'
  | None => None
  end.

Definition set_iterationCount (t : Z) (g : MatrixGame) : MatrixGame :=
  mkGame (size g) t (payoffs g) (strategy g) (cfr g).

Definition set_strategy (player : Z) (v : list float) (g : MatrixGame)
  : MatrixGame :=
  mkGame (size g) (iterationCount g) (payoffs g)
         (upd player v (strategy g)) (cfr g).

Definition set_cfr (player : Z) (v : list float) (g : MatrixGame)
  : MatrixGame :=
  mkGame (size g) (iterationCount g) (payoffs g)
         (strategy g) (upd player v (cfr g)).

(** [iterationCount++]. *)
Definition tick (g : MatrixGame) : MatrixGame :=
  set_iterationCount (wrap32 (iterationCount g + 1)) g.

(** The search loop of [FictitiousPlay(int)]: [(maxSum, bestAction)]. *)
Definition best_action (g : MatrixGame) (player : Z) : float * Z :=
  let ns := GetNormalizedStrategy g (other player) in
  for_range (size g)
    (fun a st =>
       let sum := payoff_sum g player ns a in
       if fst st <? sum then (sum, Z.of_nat a) else st)
    (- DBL_MAX, (-1)%Z).

(** [FictitiousPlay(int player)]; the write [strategy[player][bestAction]++]
    is checked against the bounds of the vector. *)
Definition FictitiousPlay_player (player : Z) : M unit :=
  fun g =>
    let bestAction := snd (best_action g player) in
    let s := sel player (strategy g) in
    if ((0 <=? bestAction)%Z && (Z.to_nat bestAction <? length s)%nat)%bool then
      let i := Z.to_nat bestAction in
      Some (tt, set_strategy player (vset i (nth i s 0 + 1) s) g)
    else None.

(** The first loop of [CFR(int)] and of [CFRPlus(int)]: [cfu] and [ev]. *)
Definition cfu_ev (g : MatrixGame) (player : Z) (sp so : list float)
  : list float * float :=
  for_range (size g)
    (fun a st =>
       let cfu := vset a (payoff_sum g player so a) (fst st) in
       (cfu, snd st + nth a sp 0 * nth a cfu 0))
    (vnew (size g), 0).

(** [CFR(int player)], as the state it leaves. *)
Definition CFR_update (player : Z) (g : MatrixGame) : MatrixGame :=
  let sp := GetCurrentStrategy g player in
  let so := GetCurrentStrategy g (other player) in
  let cfu := fst (cfu_ev g player sp so) in
  let ev := snd (cfu_ev g player sp so) in
  let g1 := set_cfr player
              (for_range (size g)
                 (fun a r => vset a (nth a r 0 + (nth a cfu 0 - ev)) r)
                 (sel player (cfr g))) g in
  set_strategy player
    (for_range (size g)
       (fun a s => vset a (nth a s 0 + nth a sp 0) s)
       (sel player (strategy g1))) g1.

(** [CFRPlus(int player)], as the state it leaves. *)
Definition CFRPlus_update (player : Z) (g : MatrixGame) : MatrixGame :=
  let sp := GetCurrentStrategy g player in
  let so := GetCurrentStrategy g (other player) in
  let cfu := fst (cfu_ev g player sp so) in
  let ev := snd (cfu_ev g player sp so) in
  let g1 := set_cfr player
              (for_range (size g)
                 (fun a r => vset a (fmax 0 (nth a r 0 + nth a cfu 0 - ev)) r)
                 (sel player (cfr g))) g in
  set_strategy player
    (for_range (size g)
       (fun a s =>
          vset a (nth a s 0 + nth a sp 0 * of_int (iterationCount g1)
                                        * of_int (iterationCount g1)) s)
       (sel player (strategy g1))) g1.

(** The public, argument-free overloads and the dispatch. *)
Definition FictitiousPlay : M unit :=
  bind (modify tick) (fun _ =>
  bind (FictitiousPlay_player 0) (fun _ => FictitiousPlay_player 1)).

Definition CFR : M unit :=
  bind (modify tick) (fun _ =>
  bind (modify (CFR_update 0)) (fun _ => modify (CFR_update 1))).

Definition CFRPlus : M unit :=
  bind (modify tick) (fun _ =>
  bind (modify (CFRPlus_update 0)) (fun _ => modify (CFRPlus_update 1))).

Definition Iteration (algorithm : Z) : M unit :=
  match algorithm with
  | 0%Z => FictitiousPlay
  | 1%Z => CFR
  | _ => CFRPlus
  end.

(** A run of [Iteration] calls, one per selector of the list. *)
Fixpoint iterate (algs : list Z) (g : MatrixGame) : option MatrixGame :=
  match algs with
  | [] => Some g
  | alg :: rest =>
      match exec (Iteration alg) g with
      | Some g' => iterate rest g'
      | None => None
      end
  end.

(** *** The quantities the statements speak of

    Written from the words of the specification, not from the loops: a sum
    over the actions in index order, the payoff read off the matrix, the
    average and the current strategy, the expected payoff of an action. *)

(** [f 0 + f 1 + ... + f (n - 1)], added in that order from [+0.0]. *)
Fixpoint fsum (n : nat) (f : nat -> float) : float :=
  match n with
  | O => 0
  | S k => fsum k f + f k
  end.

(** The matrix entry [M[a][b]]. *)
Definition entry (g : MatrixGame) (a b : nat) : float :=
  nth (a * size g + b) (payoffs g) 0.

(** The payoff of [player] playing [a] against [b]: [M[a][b]] for player 0,
    [-M[b][a]] for player 1. *)
Definition payoff (g : MatrixGame) (player : Z) (a b : nat) : float :=
  if (player =? 0)%Z then entry g a b else - entry g b a.

(** The total of a player's strategy accumulator. *)
Definition strategy_total (g : MatrixGame) (player : Z) : float :=
  fsum (size g) (fun i => nth i (sel player (strategy g)) 0).

(** The total of the positive parts of a player's regrets. *)
Definition regret_total (g : MatrixGame) (player : Z) : float :=
  fsum (size g) (fun i => fmax 0 (nth i (sel player (cfr g)) 0)).

(** Entry [i] of [AverageStrategy(player)]. *)
Definition AverageStrategy (g : MatrixGame) (player : Z) (i : nat) : float :=
  if 0 <? strategy_total g player
  then nth i (sel player (strategy g)) 0 / strategy_total g player
  else 1 / of_int (Z.of_nat (size g)).


(** The expected payoff of action [a] of [player] against the opponent's
    average strategy. *)
Definition expected_payoff (g : MatrixGame) (player : Z) (a : nat) : float :=
  fsum (size g)
       (fun b => AverageStrategy g (1 - player) b * payoff g player a b).

(** [x >= 0] as the program can test it: [x < 0] is false. *)
Definition not_neg (x : float) : Prop := (x <? 0) = false.

(** The shape the constructor gives the object and no method changes:
    [size * size] within [int], a matrix of [size * size] cells and four
    accumulators of [size] cells. *)
Definition sized (g : MatrixGame) : Prop :=
  (Z.of_nat (size g * size g) <= INT_MAX)%Z /\
  length (payoffs g) = (size g * size g)%nat /\
  (forall p, length (sel p (strategy g)) = size g) /\
  (forall p, length (sel p (cfr g)) = size g).

(** A well-formed state: the shape above, and no strategy cell negative. *)
Definition Inv (g : MatrixGame) : Prop :=
  sized g /\
  forall p i, not_neg (nth i (sel p (strategy g)) 0).

(** The states the program can be in: the constructor on a game of [n]
    actions with [1 <= n] and [n * n] within [int], draws in [[-1, 1)], then
    a run of [Iteration] calls short enough for the counter. *)
Definition reachable (g : MatrixGame) : Prop :=
  exists (n : nat) (rnd : nat -> float) (algs : list Z),
    (0 < n)%nat /\ (Z.of_nat (n * n) <= INT_MAX)%Z /\
    (forall k, ((-1 <=? rnd k) && (rnd k <? 1))%bool = true) /\
    (Z.of_nat (length algs) <= INT_MAX)%Z /\
    iterate algs (MatrixGame_new n rnd) = Some g.

End B64.


(** Two games for the binary64 model: a 2 x 2 game with payoffs
    [{-1/8, -7/8, 11/16, -7/8}] and a 3 x 3 game with payoffs
    [{0, 7/8, -7/8, 3/8, -1/8, -1/4, -5/8, -5/8, -3/8}]; later draws are 0. *)
Definition rnd_a (k : nat) : float :=
  nth k [-0.125; -0.875; 0.6875; -0.875]%float 0%float.

Definition rnd_b (k : nat) : float :=
  nth k [0; 0.875; -0.875; 0.375; -0.125; -0.25; -0.625; -0.625; -0.375]%float
      0%float.

(** The draws of the 3 x 3 game as exact rationals. *)
Definition rnd_bq (k : nat) : Q :=
  nth k [0; 7 # 8; - (7 # 8); 3 # 8; - (1 # 8); - (1 # 4);
         - (5 # 8); - (5 # 8); - (3 # 8)] 0.

(** The 2 x 2 game after three iterations of Fictitious Play, the fresh
    3 x 3 game and a fresh 6 x 6 game. *)
Definition g_a3 : B64.MatrixGame :=
  Eval vm_compute in
    match B64.iterate [0; 0; 0]%Z (B64.MatrixGame_new 2 rnd_a) with
    | Some g => g
    | None => B64.MatrixGame_new 2 rnd_a
    end.

Definition g_b : B64.MatrixGame := B64.MatrixGame_new 3 rnd_b.


(** ** Sign of a binary64 number in its specification form *)

(** Not below zero: a zero of either sign, a positive number or a NaN. *)
Definition sf_not_neg (x : spec_float) : Prop :=
  SFltb x (S754_zero false) = false.

(** The sign bit is clear, or the number is a NaN. *)
Definition sf_clear (x : spec_float) : Prop :=
  match x with
  | S754_zero s | S754_infinity s | S754_finite s _ _ => s = false
  | S754_nan => True
  end.

(** * Vocabulary of the properties *)

(** A sum loop: [sum = 0; for (i = 0; i < n; i++) sum += f i]. *)
Definition rsum (n : nat) (f : nat -> Q) : Q :=
  for_range n (fun i s => s + f i) 0.

(** A probability vector over [n] actions. *)
Definition is_dist (n : nat) (v : list Q) : Prop :=
  length v = n /\
  (forall i, (i < n)%nat -> 0 <= nth i v 0) /\
  rsum n (fun i => nth i v 0) == 1.

(** The total of [strategy[player]], as the first loop computes it. *)
Definition strategy_total (g : MatrixGame) (player : Z) : Q :=
  rsum (size g) (fun i => nth i (sel player (strategy g)) 0).

(** The total of the positive parts of [cfr[player]]. *)
Definition regret_total (g : MatrixGame) (player : Z) : Q :=
  rsum (size g) (fun i => fmax 0 (nth i (sel player (cfr g)) 0)).

(** The two players of the game: the only values ever passed as [player]. *)
Definition is_player (p : Z) : Prop := p = 0%Z \/ p = 1%Z.

(** The range of [uniform_real_distribution<double>(-1.0, 1.0)]. *)
Definition in_range (x : Q) : Prop := -1 <= x /\ x <= 1.

(** Every vector has the length the constructor gave it. *)
Definition sized (g : MatrixGame) : Prop :=
  length (payoffs g) = (size g * size g)%nat /\
  length (fst (strategy g)) = size g /\
  length (snd (strategy g)) = size g /\
  length (fst (cfr g)) = size g /\
  length (snd (cfr g)) = size g.

(** The invariant of a solver in use: a non-empty game, vectors of the right
    length, payoffs as drawn, and strategy accumulators that are sums of
    non-negative terms. *)
Definition Inv (g : MatrixGame) : Prop :=
  (0 < size g)%nat /\
  sized g /\
  (forall i, in_range (nth i (payoffs g) 0)) /\
  (forall p i, 0 <= nth i (sel p (strategy g)) 0).

(** The expected payoff of action [a] of [player] against the opponent's
    average strategy: the [sum] of the loop body in [BestResponse] and
    [FictitiousPlay]. *)
Definition expected (g : MatrixGame) (player : Z) (a : nat) : Q :=
  payoff_sum g player (GetNormalizedStrategy g (other player)) a.

(** What the search loop of [FictitiousPlay(int)] holds after [k] actions:
    nothing found yet, or the first action whose sum is the largest so far. *)
Definition search_inv (g : MatrixGame) (p : Z) (k : nat) (st : Q * Z) : Prop :=
  (snd st = (-1)%Z /\ fst st = - DBL_MAX /\
   forall a, (a < k)%nat -> expected g p a <= - DBL_MAX) \/
  (exists best, (best < k)%nat /\ snd st = Z.of_nat best /\
                fst st = expected g p best /\
                - DBL_MAX < expected g p best /\
                (forall a, (a < k)%nat -> expected g p a <= expected g p best) /\
                (forall a, (a < best)%nat -> expected g p a < expected g p best)).

(** The counterfactual utility [cfu[a]] of action [a], as the first loop of
    [CFR(int)] / [CFRPlus(int)] computes it from the opponent's current
    strategy read at the start of the call. *)
Definition cfu_of (g : MatrixGame) (player : Z) (a : nat) : Q :=
  payoff_sum g player (GetCurrentStrategy g (other player)) a.

(** The expected value [ev] of the same loop. *)
Definition ev_of (g : MatrixGame) (player : Z) : Q :=
  rsum (size g)
       (fun a => nth a (GetCurrentStrategy g player) 0 * cfu_of g player a).

(** No cell of a regret vector is negative. *)
Definition regrets_nonneg (g : MatrixGame) : Prop :=
  forall p i, 0 <= nth i (sel p (cfr g)) 0.

(** Cell by cell, the strategy accumulators of [g'] are at least those of
    [g]. *)
Definition strategy_le (g g' : MatrixGame) : Prop :=
  forall p a, nth a (sel p (strategy g)) 0 <= nth a (sel p (strategy g')) 0.

(** The states the program can be in: the constructor on a game of at least
    one action, followed by any sequence of [Iteration] calls. *)
Definition reachable (g : MatrixGame) : Prop :=
  exists (n : nat) (rnd : nat -> Q) (algs : list Z),
    (0 < n)%nat /\ (forall k, in_range (rnd k)) /\
    iterate algs (MatrixGame_new n rnd) = Some g.

(** Two states hold the same accumulators. *)
Definition accumulators_agree (g g' : MatrixGame) : Prop :=
  forall p a,
    nth a (sel p (cfr g)) 0 == nth a (sel p (cfr g')) 0 /\
    nth a (sel p (strategy g)) 0 == nth a (sel p (strategy g')) 0.

(** A 2 x 2 game: [payoffs = {1/2, 0, 0, 0}]. *)
Definition rnd_c1 (k : nat) : Q :=
  match k with
  | O => 1 # 2
  | _ => 0
  end.

(** The solver freshly constructed on that game. *)
Definition g_c1 : MatrixGame := MatrixGame_new 2 rnd_c1.

(** The state of [g_c1] after one CFR iteration, and after one CFR+
    iteration. *)
Definition g_cfr1 : MatrixGame := CFR_update 1 (CFR_update 0 (tick g_c1)).

Definition g_plus1 : MatrixGame := CFRPlus_update 1 (CFRPlus_update 0 (tick g_c1)).

(** Every regret cell lies within [B] of zero. *)
Definition regrets_within (B : Q) (g : MatrixGame) : Prop :=
  (forall i, - B <= nth i (fst (cfr g)) 0 /\ nth i (fst (cfr g)) 0 <= B) /\
  (forall i, - B <= nth i (snd (cfr g)) 0 /\ nth i (snd (cfr g)) 0 <= B).

(** A second 2 x 2 game: [payoffs = {1/2, -1/2, -1/4, 1/4}], every later
    draw being [1/4]. *)
Definition rnd_w (k : nat) : Q :=
  match k with
  | O => 1 # 2
  | 1%nat => - (1 # 2)
  | 2%nat => - (1 # 4)
  | _ => 1 # 4
  end.

(** * Properties *)

(** ** Comparison and maximum *)

Lemma Qltb_lt (x y : Q) : Qltb x y = true <-> x < y.
Proof. unfold Qltb, Qlt. apply Z.ltb_lt. Qed.

Lemma Qltb_ge (x y : Q) : Qltb x y = false <-> y <= x.
Proof. unfold Qltb, Qle. rewrite Z.ltb_ge. reflexivity. Qed.

Lemma fmax_lower (a b : Q) : a <= fmax a b.
Proof.
  unfold fmax. destruct (Qltb a b) eqn:E.
  - apply Qltb_lt in E. apply Qlt_le_weak, E.
  - apply Qle_refl.
Qed.

Lemma fmax_pos (x : Q) : 0 < x -> fmax 0 x = x.
Proof. intros H. unfold fmax. apply Qltb_lt in H. rewrite H. reflexivity. Qed.

Lemma fmax_nonpos (x : Q) : x <= 0 -> fmax 0 x = 0.
Proof. intros H. unfold fmax. apply Qltb_ge in H. rewrite H. reflexivity. Qed.

(** ** Vectors *)

Lemma length_vset {A : Type} (i : nat) (x : A) (v : list A) :
  length (vset i x v) = length v.
Proof.
  revert i. induction v as [|h t IH]; intros [|i]; simpl; auto.
Qed.

Lemma nth_vset_same {A : Type} (i : nat) (x d : A) (v : list A) :
  (i < length v)%nat -> nth i (vset i x v) d = x.
Proof.
  revert i. induction v as [|h t IH]; intros [|i] H; simpl in *; try lia; auto.
  apply IH. lia.
Qed.

Lemma nth_vset_other {A : Type} (i j : nat) (x d : A) (v : list A) :
  i <> j -> nth j (vset i x v) d = nth j v d.
Proof.
  revert i j. induction v as [|h t IH]; intros [|i] [|j] H; simpl; auto; try lia.
Qed.

Lemma length_vnew (n : nat) : length (vnew n) = n.
Proof. apply repeat_length. Qed.

Lemma nth_vnew (n i : nat) : nth i (vnew n) 0 = 0.
Proof.
  unfold vnew. revert i. induction n as [|n IH]; intros [|i]; simpl; auto.
Qed.

(** ** Loops *)

Lemma for_range_S {St : Type} (n : nat) (body : nat -> St -> St) (s : St) :
  for_range (S n) body s = body n (for_range n body s).
Proof.
  unfold for_range. rewrite seq_S, fold_left_app. reflexivity.
Qed.

Lemma for_range_inv {St : Type} (P : nat -> St -> Prop) (n : nat)
      (body : nat -> St -> St) (s : St) :
  P O s ->
  (forall i x, (i < n)%nat -> P i x -> P (S i) (body i x)) ->
  P n (for_range n body s).
Proof.
  intros H0 Hstep.
  assert (G : forall k, (k <= n)%nat -> P k (for_range k body s)).
  { induction k as [|k IH]; intros Hk.
    - exact H0.
    - rewrite for_range_S. apply Hstep; [lia | apply IH; lia]. }
  apply G. lia.
Qed.

(** A loop that rewrites cell [a] from its old content, [v[a] = F a v[a]]. *)
Lemma length_for_vset (F : nat -> list Q -> Q) (n : nat) (v : list Q) :
  length (for_range n (fun a r => vset a (F a r) r) v) = length v.
Proof.
  apply (for_range_inv (fun _ r => length r = length v)); auto.
  intros i x _ H. rewrite length_vset. exact H.
Qed.

Lemma nth_for_update (F : nat -> Q -> Q) (n : nat) (v : list Q) (i : nat) :
  (n <= length v)%nat ->
  nth i (for_range n (fun a r => vset a (F a (nth a r 0)) r) v) 0 =
  if (i <? n)%nat then F i (nth i v 0) else nth i v 0.
Proof.
  intros Hn.
  apply (for_range_inv
           (fun k r => length r = length v /\
                       forall j, nth j r 0 =
                                 if (j <? k)%nat then F j (nth j v 0) else nth j v 0)).
  - split; auto.
  - intros k x Hk [Hl Hx]. split.
    + rewrite length_vset. exact Hl.
    + intros j. destruct (Nat.eq_dec k j) as [->|Hne].
      * rewrite nth_vset_same by lia. rewrite Hx.
        rewrite (proj2 (Nat.ltb_ge j j)) by lia.
        rewrite (proj2 (Nat.ltb_lt j (S j))) by lia. reflexivity.
      * rewrite nth_vset_other by exact Hne. rewrite Hx.
        destruct (j <? k)%nat eqn:E1; destruct (j <? S k)%nat eqn:E2;
          try reflexivity.
        -- apply Nat.ltb_lt in E1. apply Nat.ltb_ge in E2. lia.
        -- apply Nat.ltb_ge in E1. apply Nat.ltb_lt in E2. lia.
Qed.

(** A loop that fills a fresh vector, [v[a] = f a]. *)
Lemma nth_for_fill (f : nat -> Q) (n i : nat) :
  (i < n)%nat ->
  nth i (for_range n (fun a r => vset a (f a) r) (vnew n)) 0 = f i.
Proof.
  intros Hi.
  rewrite (nth_for_update (fun a _ => f a) n (vnew n) i)
    by (rewrite length_vnew; lia).
  rewrite (proj2 (Nat.ltb_lt i n)) by exact Hi. reflexivity.
Qed.

Lemma length_for_fill (f : nat -> Q) (n : nat) :
  length (for_range n (fun a r => vset a (f a) r) (vnew n)) = n.
Proof.
  rewrite (length_for_vset (fun a _ => f a)). apply length_vnew.
Qed.

(** ** Sums: [sum = 0; for i: sum += f i] *)

Lemma rsum_S (n : nat) (f : nat -> Q) : rsum (S n) f = rsum n f + f n.
Proof.
  unfold rsum. exact (for_range_S n (fun i s => s + f i) 0).
Qed.

Lemma rsum_ext (n : nat) (f h : nat -> Q) :
  (forall i, (i < n)%nat -> f i == h i) -> rsum n f == rsum n h.
Proof.
  induction n as [|n IH]; intros H.
  - reflexivity.
  - rewrite !rsum_S. rewrite IH, (H n) by (auto; lia). reflexivity.
Qed.

Lemma rsum_le (n : nat) (f h : nat -> Q) :
  (forall i, (i < n)%nat -> f i <= h i) -> rsum n f <= rsum n h.
Proof.
  induction n as [|n IH]; intros H.
  - apply Qle_refl.
  - rewrite !rsum_S. apply Qplus_le_compat; [apply IH; auto | apply H; lia].
Qed.

Lemma rsum_zero (n : nat) : rsum n (fun _ => 0) == 0.
Proof.
  induction n as [|n IH]; [reflexivity|]. rewrite rsum_S, IH. ring.
Qed.

Lemma rsum_nonneg (n : nat) (f : nat -> Q) :
  (forall i, (i < n)%nat -> 0 <= f i) -> 0 <= rsum n f.
Proof.
  intros H. rewrite <- (rsum_zero n). apply rsum_le. exact H.
Qed.

Lemma rsum_scale (n : nat) (f : nat -> Q) (c : Q) :
  rsum n (fun i => f i * c) == rsum n f * c.
Proof.
  induction n as [|n IH]; [unfold rsum, for_range; simpl; ring|].
  rewrite !rsum_S, IH. ring.
Qed.

Lemma rsum_plus (n : nat) (f h : nat -> Q) :
  rsum n (fun i => f i + h i) == rsum n f + rsum n h.
Proof.
  induction n as [|n IH]; [unfold rsum, for_range; simpl; ring|].
  rewrite !rsum_S, IH. ring.
Qed.

Lemma rsum_const (n : nat) (c : Q) :
  rsum n (fun _ => c) == inject_Z (Z.of_nat n) * c.
Proof.
  induction n as [|n IH]; [unfold rsum, for_range; simpl; ring|].
  rewrite rsum_S, IH, Nat2Z.inj_succ. unfold Z.succ.
  rewrite inject_Z_plus. ring.
Qed.

Lemma rsum_exchange (n m : nat) (f : nat -> nat -> Q) :
  rsum n (fun a => rsum m (fun b => f a b)) ==
  rsum m (fun b => rsum n (fun a => f a b)).
Proof.
  induction n as [|n IH].
  - change (rsum 0 (fun a => rsum m (fun b => f a b))) with 0.
    symmetry. apply (rsum_zero m).
  - rewrite rsum_S, IH.
    rewrite <- rsum_plus. apply rsum_ext. intros i _.
    rewrite rsum_S. reflexivity.
Qed.

(** ** Probability vectors *)

Lemma size_to_double_pos (n : nat) : (0 < n)%nat -> 0 < of_int (Z.of_nat n).
Proof.
  intros H. unfold of_int. change 0 with (inject_Z 0).
  rewrite <- Zlt_Qlt. lia.
Qed.

Lemma uniform_nonneg (n : nat) : 0 <= 1 / of_int (Z.of_nat n).
Proof.
  destruct n as [|n].
  - cbv. discriminate.
  - apply Qle_shift_div_l.
    + apply size_to_double_pos. lia.
    + assert (0 < of_int (Z.of_nat (S n))) by (apply size_to_double_pos; lia).
      lra.
Qed.

Lemma uniform_sum (n : nat) :
  (0 < n)%nat -> rsum n (fun _ => 1 / of_int (Z.of_nat n)) == 1.
Proof.
  intros H. rewrite rsum_const. apply size_to_double_pos in H.
  unfold of_int in *. field. lra.
Qed.

Lemma Qmult_le_nonneg_l (w x y : Q) : 0 <= w -> x <= y -> w * x <= w * y.
Proof. intros Hw Hxy. nra. Qed.

(** A convex combination lies below any upper bound of its points. *)
Lemma convex_le (n : nat) (w x : nat -> Q) (c : Q) :
  (forall i, (i < n)%nat -> 0 <= w i) ->
  rsum n w == 1 ->
  (forall i, (i < n)%nat -> x i <= c) ->
  rsum n (fun i => w i * x i) <= c.
Proof.
  intros Hw Hs Hx.
  assert (E : rsum n (fun i => w i * c) == c) by (rewrite rsum_scale, Hs; ring).
  rewrite <- E. apply rsum_le. intros i Hi.
  apply Qmult_le_nonneg_l; auto.
Qed.

Lemma convex_ge (n : nat) (w x : nat -> Q) (c : Q) :
  (forall i, (i < n)%nat -> 0 <= w i) ->
  rsum n w == 1 ->
  (forall i, (i < n)%nat -> c <= x i) ->
  c <= rsum n (fun i => w i * x i).
Proof.
  intros Hw Hs Hx.
  assert (E : rsum n (fun i => w i * c) == c) by (rewrite rsum_scale, Hs; ring).
  rewrite <- E. apply rsum_le. intros i Hi.
  apply Qmult_le_nonneg_l; auto.
Qed.

(** ** [GetNormalizedStrategy] and [GetCurrentStrategy] *)

Lemma GetNormalizedStrategy_length (g : MatrixGame) (p : Z) :
  length (GetNormalizedStrategy g p) = size g.
Proof.
  unfold GetNormalizedStrategy.
  destruct (Qltb 0 _); apply length_for_fill.
Qed.

Lemma GetNormalizedStrategy_pos (g : MatrixGame) (p : Z) (i : nat) :
  0 < strategy_total g p -> (i < size g)%nat ->
  nth i (GetNormalizedStrategy g p) 0 =
  nth i (sel p (strategy g)) 0 / strategy_total g p.
Proof.
  intros H Hi. unfold GetNormalizedStrategy.
  change (for_range (size g) (fun i s => s + nth i (sel p (strategy g)) 0) 0)
    with (strategy_total g p).
  apply Qltb_lt in H. rewrite H.
  exact (nth_for_fill
           (fun a => nth a (sel p (strategy g)) 0 / strategy_total g p) _ i Hi).
Qed.

Lemma GetNormalizedStrategy_uniform (g : MatrixGame) (p : Z) (i : nat) :
  strategy_total g p <= 0 -> (i < size g)%nat ->
  nth i (GetNormalizedStrategy g p) 0 = 1 / of_int (Z.of_nat (size g)).
Proof.
  intros H Hi. unfold GetNormalizedStrategy.
  change (for_range (size g) (fun i s => s + nth i (sel p (strategy g)) 0) 0)
    with (strategy_total g p).
  apply Qltb_ge in H. rewrite H.
  exact (nth_for_fill (fun _ => 1 / of_int (Z.of_nat (size g))) _ i Hi).
Qed.

Lemma GetNormalizedStrategy_dist (g : MatrixGame) (p : Z) :
  (0 < size g)%nat ->
  (forall i, (i < size g)%nat -> 0 <= nth i (sel p (strategy g)) 0) ->
  is_dist (size g) (GetNormalizedStrategy g p).
Proof.
  intros Hn Hs. split; [apply GetNormalizedStrategy_length|].
  destruct (Qlt_le_dec 0 (strategy_total g p)) as [Hpos|Hz].
  - split.
    + intros i Hi. rewrite GetNormalizedStrategy_pos by assumption.
      apply Qle_shift_div_l; [exact Hpos|]. specialize (Hs i Hi). lra.
    + rewrite (rsum_ext _ _
                 (fun i => nth i (sel p (strategy g)) 0 * / strategy_total g p)).
      * rewrite rsum_scale. fold (strategy_total g p). field. lra.
      * intros i Hi. rewrite GetNormalizedStrategy_pos by assumption.
        reflexivity.
  - split.
    + intros i Hi. rewrite GetNormalizedStrategy_uniform by assumption.
      apply uniform_nonneg.
    + rewrite (rsum_ext _ _ (fun _ => 1 / of_int (Z.of_nat (size g)))).
      * apply uniform_sum, Hn.
      * intros i Hi. rewrite GetNormalizedStrategy_uniform by assumption.
        reflexivity.
Qed.

Lemma GetCurrentStrategy_length (g : MatrixGame) (p : Z) :
  length (GetCurrentStrategy g p) = size g.
Proof.
  unfold GetCurrentStrategy.
  destruct (Qltb 0 _).
  - exact (length_for_fill
             (fun i => if Qltb 0 (nth i (sel p (cfr g)) 0)
                       then nth i (sel p (cfr g)) 0 / regret_total g p else 0) _).
  - apply length_for_fill.
Qed.

Lemma GetCurrentStrategy_pos (g : MatrixGame) (p : Z) (i : nat) :
  0 < regret_total g p -> (i < size g)%nat ->
  nth i (GetCurrentStrategy g p) 0 =
  if Qltb 0 (nth i (sel p (cfr g)) 0)
  then nth i (sel p (cfr g)) 0 / regret_total g p else 0.
Proof.
  intros H Hi. unfold GetCurrentStrategy.
  change (for_range (size g)
            (fun i s => s + fmax 0 (nth i (sel p (cfr g)) 0)) 0)
    with (regret_total g p).
  apply Qltb_lt in H. rewrite H.
  exact (nth_for_fill
           (fun a => if Qltb 0 (nth a (sel p (cfr g)) 0)
                     then nth a (sel p (cfr g)) 0 / regret_total g p else 0)
           _ i Hi).
Qed.

Lemma GetCurrentStrategy_uniform (g : MatrixGame) (p : Z) (i : nat) :
  regret_total g p <= 0 -> (i < size g)%nat ->
  nth i (GetCurrentStrategy g p) 0 = 1 / of_int (Z.of_nat (size g)).
Proof.
  intros H Hi. unfold GetCurrentStrategy.
  change (for_range (size g)
            (fun i s => s + fmax 0 (nth i (sel p (cfr g)) 0)) 0)
    with (regret_total g p).
  apply Qltb_ge in H. rewrite H.
  exact (nth_for_fill (fun _ => 1 / of_int (Z.of_nat (size g))) _ i Hi).
Qed.

Lemma regret_total_nonneg (g : MatrixGame) (p : Z) : 0 <= regret_total g p.
Proof. apply rsum_nonneg. intros i _. apply fmax_lower. Qed.

(** The quotient written in the source is the positive part over the total. *)
Lemma GetCurrentStrategy_pos_part (g : MatrixGame) (p : Z) (i : nat) :
  0 < regret_total g p -> (i < size g)%nat ->
  nth i (GetCurrentStrategy g p) 0 ==
  fmax 0 (nth i (sel p (cfr g)) 0) / regret_total g p.
Proof.
  intros H Hi. rewrite GetCurrentStrategy_pos by assumption.
  destruct (Qltb 0 (nth i (sel p (cfr g)) 0)) eqn:E.
  - apply Qltb_lt in E. rewrite fmax_pos by exact E. reflexivity.
  - apply Qltb_ge in E. rewrite fmax_nonpos by exact E. field. lra.
Qed.

Lemma GetCurrentStrategy_nonneg (g : MatrixGame) (p : Z) (i : nat) :
  (i < size g)%nat -> 0 <= nth i (GetCurrentStrategy g p) 0.
Proof.
  intros Hi. destruct (Qlt_le_dec 0 (regret_total g p)) as [Hpos|Hz].
  - rewrite GetCurrentStrategy_pos_part by assumption.
    apply Qle_shift_div_l; [exact Hpos|].
    pose proof (fmax_lower 0 (nth i (sel p (cfr g)) 0)). lra.
  - rewrite GetCurrentStrategy_uniform by assumption. apply uniform_nonneg.
Qed.

Lemma GetCurrentStrategy_dist (g : MatrixGame) (p : Z) :
  (0 < size g)%nat -> is_dist (size g) (GetCurrentStrategy g p).
Proof.
  intros Hn. split; [apply GetCurrentStrategy_length|]. split.
  - intros i Hi. apply GetCurrentStrategy_nonneg, Hi.
  - destruct (Qlt_le_dec 0 (regret_total g p)) as [Hpos|Hz].
    + rewrite (rsum_ext _ _
                 (fun i => fmax 0 (nth i (sel p (cfr g)) 0) * / regret_total g p)).
      * rewrite rsum_scale. fold (regret_total g p). field. lra.
      * intros i Hi. rewrite GetCurrentStrategy_pos_part by assumption.
        reflexivity.
    + rewrite (rsum_ext _ _ (fun _ => 1 / of_int (Z.of_nat (size g)))).
      * apply uniform_sum, Hn.
      * intros i Hi. rewrite GetCurrentStrategy_uniform by assumption.
        reflexivity.
Qed.

(** ** Well-formed solver states *)

Lemma sel_upd_same {A : Type} (p : Z) (x : A) (arr : A * A) :
  sel p (upd p x arr) = x.
Proof. unfold sel, upd. destruct (p =? 0)%Z; reflexivity. Qed.

Lemma sel_length (g : MatrixGame) (p : Z) :
  sized g -> length (sel p (strategy g)) = size g /\ length (sel p (cfr g)) = size g.
Proof.
  intros (_ & H1 & H2 & H3 & H4). unfold sel. destruct (p =? 0)%Z; auto.
Qed.

Lemma sel_cases {A : Type} (P : A -> Prop) (p : Z) (arr : A * A) :
  P (fst arr) -> P (snd arr) -> P (sel p arr).
Proof. unfold sel. destruct (p =? 0)%Z; auto. Qed.

Lemma nth_vset_cases {A : Type} (i j : nat) (x d : A) (v : list A) :
  nth j (vset i x v) d = x \/ nth j (vset i x v) d = nth j v d.
Proof.
  destruct (Nat.eq_dec i j) as [->|Hne].
  - destruct (Nat.lt_ge_cases j (length v)) as [Hlt|Hge].
    + left. apply nth_vset_same, Hlt.
    + right. rewrite !nth_overflow; auto. rewrite length_vset. exact Hge.
  - right. apply nth_vset_other, Hne.
Qed.

Lemma in_range_0 : in_range 0.
Proof. unfold in_range. lra. Qed.

Lemma CreateRandom_length (n : nat) (rnd : nat -> Q) (pay : list Q) :
  length (CreateRandom n rnd pay) = length pay.
Proof.
  unfold CreateRandom.
  apply (for_range_inv (fun _ st => length (fst st) = length pay)); auto.
  intros a st _ Ha.
  apply (for_range_inv (fun _ st' => length (fst st') = length pay)); auto.
  intros b st' _ Hb. simpl. rewrite length_vset. exact Hb.
Qed.

Lemma CreateRandom_in_range (n : nat) (rnd : nat -> Q) (pay : list Q) :
  (forall k, in_range (rnd k)) ->
  (forall i, in_range (nth i pay 0)) ->
  forall i, in_range (nth i (CreateRandom n rnd pay) 0).
Proof.
  intros Hr Hp. unfold CreateRandom.
  apply (for_range_inv (fun _ st => forall i, in_range (nth i (fst st) 0))); auto.
  intros a st _ Ha.
  apply (for_range_inv (fun _ st' => forall i, in_range (nth i (fst st') 0))); auto.
  intros b st' _ Hb i. simpl.
  destruct (nth_vset_cases (a * n + b) i (rnd (snd st')) 0 (fst st')) as [E|E];
    rewrite E; auto.
Qed.

Lemma MatrixGame_new_Inv (n : nat) (rnd : nat -> Q) :
  (0 < n)%nat -> (forall k, in_range (rnd k)) -> Inv (MatrixGame_new n rnd).
Proof.
  intros Hn Hr. unfold Inv, sized. simpl.
  rewrite CreateRandom_length, !length_vnew.
  split; [exact Hn|]. split; [auto 6|]. split.
  - apply CreateRandom_in_range; auto.
    intros i. rewrite nth_vnew. apply in_range_0.
  - intros p i. apply (sel_cases (fun v => 0 <= nth i v 0)); simpl;
      rewrite nth_vnew; apply Qle_refl.
Qed.

(** ** Expected payoffs, [BestResponse] and the Fictitious Play search *)

Lemma payoff_sum_rsum (g : MatrixGame) (p : Z) (w : list Q) (a : nat) :
  payoff_sum g p w a = rsum (size g) (fun b => nth b w 0 * GetPayoff g p a b).
Proof. reflexivity. Qed.

Lemma GetPayoff_in_range (g : MatrixGame) (p : Z) (a b : nat) :
  (forall i, in_range (nth i (payoffs g) 0)) -> in_range (GetPayoff g p a b).
Proof.
  intros H. unfold GetPayoff. destruct (p =? 0)%Z.
  - apply H.
  - destruct (H (b * size g + a)%nat) as [H1 H2]. unfold in_range. lra.
Qed.

Lemma payoff_sum_ge (g : MatrixGame) (p : Z) (w : list Q) (a : nat) :
  is_dist (size g) w ->
  (forall i, in_range (nth i (payoffs g) 0)) ->
  -1 <= payoff_sum g p w a.
Proof.
  intros (_ & Hw & Hs) Hp. rewrite payoff_sum_rsum.
  apply convex_ge; auto.
  intros b _. apply (GetPayoff_in_range g p a b Hp).
Qed.

Lemma DBL_MAX_below : - DBL_MAX < -1.
Proof. reflexivity. Qed.

Lemma BestResponse_upper (g : MatrixGame) (p : Z) (a : nat) :
  (a < size g)%nat -> expected g p a <= BestResponse g p.
Proof.
  intros Ha. unfold BestResponse.
  revert a Ha.
  apply (for_range_inv
           (fun k m => forall a, (a < k)%nat -> expected g p a <= m)).
  - intros a Ha. lia.
  - intros k m Hk IH a Ha. fold (expected g p k).
    destruct (Qltb m (expected g p k)) eqn:E.
    + apply Qltb_lt in E. destruct (Nat.eq_dec a k) as [->|Hne].
      * apply Qle_refl.
      * assert (expected g p a <= m) by (apply IH; lia). lra.
    + apply Qltb_ge in E. destruct (Nat.eq_dec a k) as [->|Hne].
      * exact E.
      * apply IH. lia.
Qed.

Lemma BestResponse_attained (g : MatrixGame) (p : Z) :
  (exists a, (a < size g)%nat /\ - DBL_MAX < expected g p a) ->
  exists a, (a < size g)%nat /\ BestResponse g p = expected g p a.
Proof.
  intros (a0 & Ha0 & Hbig). unfold BestResponse.
  assert (G : (fun k m =>
                 (m = - DBL_MAX /\
                  forall a, (a < k)%nat -> expected g p a <= - DBL_MAX) \/
                 (exists a, (a < k)%nat /\ m = expected g p a))
                (size g)
                (for_range (size g)
                   (fun a maxSum =>
                      let sum := payoff_sum g p
                                   (GetNormalizedStrategy g (other p)) a in
                      if Qltb maxSum sum then sum else maxSum) (- DBL_MAX))).
  { apply for_range_inv.
    - left. split; [reflexivity|]. intros a Ha. lia.
    - intros k m Hk IH. cbv zeta. fold (expected g p k).
      destruct (Qltb m (expected g p k)) eqn:E.
      + right. exists k. split; [lia | reflexivity].
      + apply Qltb_ge in E. destruct IH as [[Hm Hall]|(a & Ha & Hm)].
        * left. split; [exact Hm|]. intros a Ha.
          destruct (Nat.eq_dec a k) as [->|Hne].
          -- rewrite <- Hm. exact E.
          -- apply Hall. lia.
        * right. exists a. split; [lia | exact Hm]. }
  cbv beta in G. destruct G as [[_ Hall]|G]; [|exact G].
  specialize (Hall a0 Ha0). lra.
Qed.

Lemma best_action_inv (g : MatrixGame) (p : Z) :
  search_inv g p (size g) (best_action g p).
Proof.
  unfold best_action. apply for_range_inv.
  - left. repeat split. intros a Ha. lia.
  - intros k st Hk IH. cbv zeta. fold (expected g p k).
    destruct (Qltb (fst st) (expected g p k)) eqn:E.
    + apply Qltb_lt in E. right. exists k. simpl.
      destruct IH as [(Hb & Hm & Hall)|(best & Hlt & Hb & Hm & Hbig & Hmax & Hfirst)].
      * rewrite Hm in E. repeat split; auto; try lra.
        -- intros a Ha. destruct (Nat.eq_dec a k) as [->|Hne]; [apply Qle_refl|].
           assert (expected g p a <= - DBL_MAX) by (apply Hall; lia). lra.
        -- intros a Ha. assert (expected g p a <= - DBL_MAX) by (apply Hall; lia).
           lra.
      * rewrite Hm in E. repeat split; auto; try lra.
        -- intros a Ha. destruct (Nat.eq_dec a k) as [->|Hne]; [apply Qle_refl|].
           assert (expected g p a <= expected g p best) by (apply Hmax; lia). lra.
        -- intros a Ha.
           assert (expected g p a <= expected g p best) by (apply Hmax; lia). lra.
    + apply Qltb_ge in E.
      destruct IH as [(Hb & Hm & Hall)|(best & Hlt & Hb & Hm & Hbig & Hmax & Hfirst)].
      * left. repeat split; auto. intros a Ha.
        destruct (Nat.eq_dec a k) as [->|Hne]; [rewrite <- Hm; exact E|].
        apply Hall. lia.
      * right. exists best. repeat split; auto; try lia.
        intros a Ha. destruct (Nat.eq_dec a k) as [->|Hne].
        -- rewrite <- Hm. exact E.
        -- apply Hmax. lia.
Qed.

(** In a well-formed state every expected payoff is a convex combination of
    payoffs, hence above [-DBL_MAX]. *)
Lemma expected_ge (g : MatrixGame) (p : Z) (a : nat) :
  Inv g -> -1 <= expected g p a.
Proof.
  intros (Hn & Hs & Hp & Hpos). unfold expected.
  apply payoff_sum_ge; auto.
  apply GetNormalizedStrategy_dist; auto.
Qed.

Lemma best_action_found (g : MatrixGame) (p : Z) :
  Inv g ->
  exists best, (best < size g)%nat /\
    snd (best_action g p) = Z.of_nat best /\
    fst (best_action g p) = expected g p best /\
    (forall a, (a < size g)%nat -> expected g p a <= expected g p best) /\
    (forall a, (a < best)%nat -> expected g p a < expected g p best).
Proof.
  intros HI.
  destruct (best_action_inv g p)
    as [(_ & _ & Hall)|(best & Hlt & Hb & Hm & _ & Hmax & Hfirst)].
  - destruct HI as (Hn & HI'). 
    assert (H1 : expected g p 0 <= - DBL_MAX) by (apply Hall; lia).
    assert (H2 : -1 <= expected g p 0) by (apply expected_ge; split; auto).
    pose proof DBL_MAX_below. lra.
  - exists best. auto.
Qed.

(** ** The per-player updates *)

Lemma cfu_ev_spec (g : MatrixGame) (p : Z) (sp so : list Q) :
  length (fst (cfu_ev g p sp so)) = size g /\
  (forall a, (a < size g)%nat ->
             nth a (fst (cfu_ev g p sp so)) 0 = payoff_sum g p so a) /\
  snd (cfu_ev g p sp so) =
  rsum (size g) (fun a => nth a sp 0 * payoff_sum g p so a).
Proof.
  unfold cfu_ev.
  apply (for_range_inv
           (fun k st =>
              length (fst st) = size g /\
              (forall a, (a < k)%nat -> nth a (fst st) 0 = payoff_sum g p so a) /\
              snd st = rsum k (fun a => nth a sp 0 * payoff_sum g p so a))).
  - simpl. rewrite length_vnew. repeat split. intros a Ha. lia.
  - intros k st Hk (Hl & Hc & He). cbv zeta. simpl fst. simpl snd.
    split; [rewrite length_vset; exact Hl|]. split.
    + intros a Ha. destruct (Nat.eq_dec k a) as [->|Hne].
      * apply nth_vset_same. lia.
      * rewrite nth_vset_other by exact Hne. apply Hc. lia.
    + rewrite rsum_S, He, nth_vset_same by lia. reflexivity.
Qed.

Lemma sel_upd_cases {A : Type} (p q : Z) (x : A) (arr : A * A) :
  sel q (upd p x arr) = x \/ sel q (upd p x arr) = sel q arr.
Proof.
  unfold sel, upd. destruct (p =? 0)%Z, (q =? 0)%Z; simpl; auto.
Qed.

Lemma length_upd (p : Z) (v : list Q) (arr : list Q * list Q) (n : nat) :
  length v = n -> length (fst arr) = n -> length (snd arr) = n ->
  length (fst (upd p v arr)) = n /\ length (snd (upd p v arr)) = n.
Proof. intros. unfold upd. destruct (p =? 0)%Z; simpl; auto. Qed.

Lemma Inv_set_strategy (p : Z) (v : list Q) (g : MatrixGame) :
  Inv g -> length v = size g -> (forall i, 0 <= nth i v 0) ->
  Inv (set_strategy p v g).
Proof.
  intros (Hn & (H0 & H1 & H2 & H3 & H4) & Hp & Hs) Hl Hv.
  destruct (length_upd p v (strategy g) (size g) Hl H1 H2) as [L1 L2].
  split; [exact Hn|]. split; [|split].
  - unfold sized. simpl. auto.
  - exact Hp.
  - intros q i. simpl.
    destruct (sel_upd_cases p q v (strategy g)) as [E|E]; rewrite E; auto.
Qed.

Lemma Inv_set_cfr (p : Z) (v : list Q) (g : MatrixGame) :
  Inv g -> length v = size g -> Inv (set_cfr p v g).
Proof.
  intros (Hn & (H0 & H1 & H2 & H3 & H4) & Hp & Hs) Hl.
  destruct (length_upd p v (cfr g) (size g) Hl H3 H4) as [L1 L2].
  split; [exact Hn|]. split; [|split].
  - unfold sized. simpl. auto.
  - exact Hp.
  - exact Hs.
Qed.

Lemma Inv_tick (g : MatrixGame) : Inv g -> Inv (tick g).
Proof. intros H. exact H. Qed.

(** An accumulation loop [v[a] += inc a] over a vector of full length. *)
Lemma nth_accumulate (inc : nat -> Q) (n : nat) (v : list Q) (i : nat) :
  length v = n ->
  nth i (for_range n (fun a s => vset a (nth a s 0 + inc a) s) v) 0 =
  if (i <? n)%nat then nth i v 0 + inc i else nth i v 0.
Proof.
  intros Hl. apply (nth_for_update (fun a x => x + inc a)). lia.
Qed.

Lemma accumulate_nonneg (inc : nat -> Q) (n : nat) (v : list Q) :
  length v = n ->
  (forall i, 0 <= nth i v 0) ->
  (forall i, (i < n)%nat -> 0 <= inc i) ->
  forall i, 0 <= nth i (for_range n (fun a s => vset a (nth a s 0 + inc a) s) v) 0.
Proof.
  intros Hl Hv Hinc i. rewrite nth_accumulate by exact Hl.
  destruct (i <? n)%nat eqn:E; [|apply Hv].
  apply Nat.ltb_lt in E. specialize (Hv i). specialize (Hinc i E). lra.
Qed.

Lemma weight_nonneg (x : Q) (t : Z) : 0 <= x -> 0 <= x * of_int t * of_int t.
Proof.
  intros Hx. assert (0 <= of_int t * of_int t) by nra.
  rewrite <- Qmult_assoc. nra.
Qed.

Lemma CFR_update_Inv (p : Z) (g : MatrixGame) : Inv g -> Inv (CFR_update p g).
Proof.
  intros HI. pose proof HI as (Hn & Hsz & Hp & Hs).
  destruct (sel_length g p Hsz) as [Ls Lr].
  unfold CFR_update. apply Inv_set_strategy.
  - apply Inv_set_cfr; [exact HI|].
    rewrite (length_for_vset
               (fun a r => nth a r 0 +
                  (nth a (fst (cfu_ev g p (GetCurrentStrategy g p)
                                      (GetCurrentStrategy g (other p)))) 0 -
                   snd (cfu_ev g p (GetCurrentStrategy g p)
                               (GetCurrentStrategy g (other p)))))).
    exact Lr.
  - rewrite (length_for_vset
               (fun a s => nth a s 0 + nth a (GetCurrentStrategy g p) 0)).
    exact Ls.
  - apply (accumulate_nonneg (fun a => nth a (GetCurrentStrategy g p) 0));
      [exact Ls | apply Hs |].
    intros i Hi. apply GetCurrentStrategy_nonneg, Hi.
Qed.

Lemma CFRPlus_update_Inv (p : Z) (g : MatrixGame) :
  Inv g -> Inv (CFRPlus_update p g).
Proof.
  intros HI. pose proof HI as (Hn & Hsz & Hp & Hs).
  destruct (sel_length g p Hsz) as [Ls Lr].
  unfold CFRPlus_update. apply Inv_set_strategy.
  - apply Inv_set_cfr; [exact HI|].
    rewrite (length_for_vset
               (fun a r => fmax 0 (nth a r 0 +
                  nth a (fst (cfu_ev g p (GetCurrentStrategy g p)
                                     (GetCurrentStrategy g (other p)))) 0 -
                  snd (cfu_ev g p (GetCurrentStrategy g p)
                              (GetCurrentStrategy g (other p)))))).
    exact Lr.
  - rewrite (length_for_vset
               (fun a s => nth a s 0 + nth a (GetCurrentStrategy g p) 0
                             * of_int (iterationCount g)
                             * of_int (iterationCount g))).
    exact Ls.
  - apply (accumulate_nonneg
             (fun a => nth a (GetCurrentStrategy g p) 0
                       * of_int (iterationCount g) * of_int (iterationCount g)));
      [exact Ls | apply Hs |].
    intros i Hi. apply weight_nonneg, GetCurrentStrategy_nonneg, Hi.
Qed.

Lemma FictitiousPlay_player_defined (p : Z) (g : MatrixGame) :
  Inv g ->
  exists best, (best < size g)%nat /\
    (forall a, (a < size g)%nat -> expected g p a <= expected g p best) /\
    (forall a, (a < best)%nat -> expected g p a < expected g p best) /\
    FictitiousPlay_player p g =
    Some (tt, set_strategy p
                (vset best (nth best (sel p (strategy g)) 0 + 1)
                      (sel p (strategy g))) g).
Proof.
  intros HI. destruct (best_action_found g p HI)
    as (best & Hlt & Hb & _ & Hmax & Hfirst).
  exists best. repeat split; auto.
  destruct HI as (_ & Hsz & _). destruct (sel_length g p Hsz) as [Ls _].
  unfold FictitiousPlay_player. rewrite Hb, Nat2Z.id, Ls.
  rewrite (proj2 (Z.leb_le 0 (Z.of_nat best))) by lia.
  rewrite (proj2 (Nat.ltb_lt best (size g))) by exact Hlt.
  reflexivity.
Qed.

Lemma FictitiousPlay_player_Inv (p : Z) (g : MatrixGame) :
  Inv g -> exists g', FictitiousPlay_player p g = Some (tt, g') /\ Inv g'.
Proof.
  intros HI.
  destruct (FictitiousPlay_player_defined p g HI) as (best & Hlt & _ & _ & E).
  eexists. split; [exact E|].
  pose proof HI as (_ & Hsz & _ & Hs). destruct (sel_length g p Hsz) as [Ls _].
  apply Inv_set_strategy; [exact HI | rewrite length_vset; exact Ls |].
  intros i.
  destruct (nth_vset_cases best i (nth best (sel p (strategy g)) 0 + 1) 0
                           (sel p (strategy g))) as [E'|E']; rewrite E'.
  - specialize (Hs p best). lra.
  - apply Hs.
Qed.

(** ** The public iteration steps *)

Lemma CFR_run (g : MatrixGame) :
  CFR g = Some (tt, CFR_update 1 (CFR_update 0 (tick g))).
Proof. reflexivity. Qed.

Lemma CFRPlus_run (g : MatrixGame) :
  CFRPlus g = Some (tt, CFRPlus_update 1 (CFRPlus_update 0 (tick g))).
Proof. reflexivity. Qed.

Lemma FictitiousPlay_run (g : MatrixGame) :
  FictitiousPlay g =
  match FictitiousPlay_player 0 (tick g) with
  | Some (_, g1) => FictitiousPlay_player 1 g1
  | None => None
  end.
Proof. reflexivity. Qed.

Lemma Iteration_cases (alg : Z) :
  (alg = 0%Z /\ Iteration alg = FictitiousPlay) \/
  (alg = 1%Z /\ Iteration alg = CFR) \/
  (alg <> 0%Z /\ alg <> 1%Z /\ Iteration alg = CFRPlus).
Proof.
  destruct alg as [|[q|q|]|q]; simpl; auto;
    right; right; repeat split; discriminate.
Qed.

Lemma Iteration_Inv (alg : Z) (g : MatrixGame) :
  Inv g -> exists g', Iteration alg g = Some (tt, g') /\ Inv g'.
Proof.
  intros HI.
  destruct (Iteration_cases alg) as [[_ E]|[[_ E]|(_ & _ & E)]]; rewrite E.
  - rewrite FictitiousPlay_run.
    destruct (FictitiousPlay_player_Inv 0 (tick g) (Inv_tick g HI))
      as (g1 & E1 & HI1).
    rewrite E1. apply FictitiousPlay_player_Inv, HI1.
  - rewrite CFR_run. eexists. split; [reflexivity|].
    apply CFR_update_Inv, CFR_update_Inv, Inv_tick, HI.
  - rewrite CFRPlus_run. eexists. split; [reflexivity|].
    apply CFRPlus_update_Inv, CFRPlus_update_Inv, Inv_tick, HI.
Qed.

(** No run from a well-formed state leaves defined behaviour, and the
    invariant holds all along. *)
Lemma iterate_Inv (algs : list Z) (g : MatrixGame) :
  Inv g -> exists g', iterate algs g = Some g' /\ Inv g'.
Proof.
  revert g. induction algs as [|alg rest IH]; intros g HI; simpl.
  - exists g. auto.
  - destruct (Iteration_Inv alg g HI) as (g1 & E & HI1).
    unfold exec. rewrite E. apply IH, HI1.
Qed.

Lemma iterate_reaches_Inv (algs : list Z) (g g' : MatrixGame) :
  Inv g -> iterate algs g = Some g' -> Inv g'.
Proof.
  intros HI E. destruct (iterate_Inv algs g HI) as (g2 & E2 & HI2).
  congruence.
Qed.

Lemma reachable_Inv (g : MatrixGame) : reachable g -> Inv g.
Proof.
  intros (n & rnd & algs & Hn & Hr & E).
  apply (iterate_reaches_Inv algs _ g (MatrixGame_new_Inv n rnd Hn Hr) E).
Qed.

(** * The claims *)

(** ** C7: zero-sum consistency *)

(** C7.  For all actions [a], [b] within the game size, the payoff of
    player 0 at [(a, b)] is the negation of the payoff of player 1 at
    [(b, a)]: player 1 reads the negated transpose of the matrix. *)
Theorem C7_zero_sum_consistency (g : MatrixGame) (a b : nat) :
  (a < size g)%nat -> (b < size g)%nat ->
  GetPayoff g 0 a b = - GetPayoff g 1 b a.
Proof.
  intros _ _. unfold GetPayoff. simpl.
  destruct (nth (a * size g + b) (payoffs g) 0) as [num den].
  unfold Qopp. simpl. rewrite Z.opp_involutive. reflexivity.
Qed.

(** ** C9: the selector *)

(** C9.  Every selector other than 0 and 1 (2, but also a negative or a
    larger value) runs a CFR+ iteration, and that iteration is defined on
    every state: nothing is rejected or reported. *)
Theorem C9_selector_default_is_CFRPlus (alg : Z) (g : MatrixGame) :
  alg <> 0%Z -> alg <> 1%Z ->
  Iteration alg g = CFRPlus g /\
  Iteration alg g = Some (tt, CFRPlus_update 1 (CFRPlus_update 0 (tick g))).
Proof.
  intros H0 H1.
  destruct (Iteration_cases alg) as [[E _]|[[E _]|(_ & _ & E)]];
    try contradiction.
  rewrite E. split; reflexivity.
Qed.

(** ** C10: the queries *)

Lemma repeat_call_gets {A : Type} (f : MatrixGame -> A) (n : nat)
      (g : MatrixGame) :
  repeat_call n (gets f) g = Some (repeat (f g) n, g).
Proof.
  induction n as [|n IH]; simpl.
  - reflexivity.
  - unfold bind at 1. unfold gets at 1. unfold bind. rewrite IH. reflexivity.
Qed.

(** C10.  [GetExploitability] and [GetIterationCount] are pure queries:
    any number of calls leaves the whole solver state as it was, and every
    call returns the same value. *)
Theorem C10_queries_are_pure (g : MatrixGame) (n : nat) :
  repeat_call n GetExploitability_call g =
    Some (repeat (GetExploitability g) n, g) /\
  repeat_call n GetIterationCount_call g =
    Some (repeat (GetIterationCount g) n, g).
Proof.
  split; apply repeat_call_gets.
Qed.

(** ** Regret matching in exact arithmetic *)

(** In exact arithmetic [GetCurrentStrategy] is regret matching on
    [cfr[p]]: with a zero total of positive parts every action gets
    [1 / size]; otherwise an action of positive regret gets its regret over
    the total and an action of non-positive regret gets exactly 0.  In both
    cases the exact quotients are a distribution: [size] non-negative
    entries that sum to 1. *)
Lemma GetCurrentStrategy_exact (g : MatrixGame) (p : Z) :
  (0 < size g)%nat ->
  (regret_total g p == 0 ->
   forall i, (i < size g)%nat ->
        nth i (GetCurrentStrategy g p) 0 = 1 / of_int (Z.of_nat (size g))) /\
  (~ regret_total g p == 0 ->
   forall i, (i < size g)%nat ->
        (0 < nth i (sel p (cfr g)) 0 ->
         nth i (GetCurrentStrategy g p) 0 =
         nth i (sel p (cfr g)) 0 / regret_total g p) /\
        (nth i (sel p (cfr g)) 0 <= 0 ->
         nth i (GetCurrentStrategy g p) 0 = 0) /\
        nth i (GetCurrentStrategy g p) 0 ==
        fmax 0 (nth i (sel p (cfr g)) 0) / regret_total g p) /\
  is_dist (size g) (GetCurrentStrategy g p).
Proof.
  intros Hn. split; [|split].
  - intros Hz i Hi. apply GetCurrentStrategy_uniform; [lra | exact Hi].
  - intros Hnz i Hi. pose proof (regret_total_nonneg g p) as H0.
    assert (Hpos : 0 < regret_total g p).
    { apply Qle_lteq in H0. destruct H0 as [H0|H0]; [exact H0|].
      exfalso. apply Hnz. symmetry. exact H0. }
    split; [|split].
    + intros Hr. rewrite GetCurrentStrategy_pos by assumption.
      apply Qltb_lt in Hr. rewrite Hr. reflexivity.
    + intros Hr. rewrite GetCurrentStrategy_pos by assumption.
      apply Qltb_ge in Hr. rewrite Hr. reflexivity.
    + apply GetCurrentStrategy_pos_part; assumption.
  - apply GetCurrentStrategy_dist, Hn.
Qed.

(** ** The average strategy in exact arithmetic *)

Lemma strategy_total_nonneg (g : MatrixGame) (p : Z) :
  Inv g -> 0 <= strategy_total g p.
Proof.
  intros (_ & _ & _ & Hs). apply rsum_nonneg. intros i _. apply Hs.
Qed.

(** In exact arithmetic [GetNormalizedStrategy] divides every entry of
    [strategy[p]] by the total of the vector, and returns [1 / size]
    everywhere when the total is zero; in every reachable state the exact
    quotients are a distribution. *)
Lemma GetNormalizedStrategy_exact (g : MatrixGame) (p : Z) :
  reachable g ->
  (strategy_total g p == 0 ->
   forall i, (i < size g)%nat ->
        nth i (GetNormalizedStrategy g p) 0 = 1 / of_int (Z.of_nat (size g))) /\
  (~ strategy_total g p == 0 ->
   forall i, (i < size g)%nat ->
        nth i (GetNormalizedStrategy g p) 0 =
        nth i (sel p (strategy g)) 0 / strategy_total g p) /\
  is_dist (size g) (GetNormalizedStrategy g p).
Proof.
  intros Hr. pose proof (reachable_Inv g Hr) as HI.
  split; [|split].
  - intros Hz i Hi. apply GetNormalizedStrategy_uniform; [lra | exact Hi].
  - intros Hnz i Hi. pose proof (strategy_total_nonneg g p HI) as H0.
    apply GetNormalizedStrategy_pos; [|exact Hi].
    apply Qle_lteq in H0. destruct H0 as [H0|H0]; [exact H0|].
    exfalso. apply Hnz. symmetry. exact H0.
  - destruct HI as (Hn & _ & _ & Hs).
    apply GetNormalizedStrategy_dist; auto.
Qed.

(** ** What one per-player CFR / CFR+ update writes *)

Lemma cfu_ev_fst (g : MatrixGame) (p : Z) (a : nat) :
  (a < size g)%nat ->
  nth a (fst (cfu_ev g p (GetCurrentStrategy g p)
                     (GetCurrentStrategy g (other p)))) 0 = cfu_of g p a.
Proof. intros Ha. apply cfu_ev_spec, Ha. Qed.

Lemma cfu_ev_snd (g : MatrixGame) (p : Z) :
  snd (cfu_ev g p (GetCurrentStrategy g p)
              (GetCurrentStrategy g (other p))) = ev_of g p.
Proof. apply cfu_ev_spec. Qed.

Lemma CFR_update_cfr (p : Z) (g : MatrixGame) (a : nat) :
  sized g -> (a < size g)%nat ->
  nth a (sel p (cfr (CFR_update p g))) 0 =
  nth a (sel p (cfr g)) 0 + (cfu_of g p a - ev_of g p).
Proof.
  intros Hsz Ha. destruct (sel_length g p Hsz) as [_ Lr].
  unfold CFR_update. simpl. rewrite sel_upd_same.
  rewrite (nth_for_update
             (fun a x => x +
                (nth a (fst (cfu_ev g p (GetCurrentStrategy g p)
                                    (GetCurrentStrategy g (other p)))) 0 -
                 snd (cfu_ev g p (GetCurrentStrategy g p)
                             (GetCurrentStrategy g (other p))))))
    by lia.
  rewrite (proj2 (Nat.ltb_lt a (size g))) by exact Ha.
  rewrite cfu_ev_fst, cfu_ev_snd by exact Ha. reflexivity.
Qed.

Lemma CFR_update_strategy (p : Z) (g : MatrixGame) (a : nat) :
  sized g -> (a < size g)%nat ->
  nth a (sel p (strategy (CFR_update p g))) 0 =
  nth a (sel p (strategy g)) 0 + nth a (GetCurrentStrategy g p) 0.
Proof.
  intros Hsz Ha. destruct (sel_length g p Hsz) as [Ls _].
  unfold CFR_update. simpl. rewrite sel_upd_same.
  rewrite (nth_accumulate (fun a => nth a (GetCurrentStrategy g p) 0))
    by exact Ls.
  rewrite (proj2 (Nat.ltb_lt a (size g))) by exact Ha. reflexivity.
Qed.

Lemma CFRPlus_update_cfr (p : Z) (g : MatrixGame) (a : nat) :
  sized g -> (a < size g)%nat ->
  nth a (sel p (cfr (CFRPlus_update p g))) 0 =
  fmax 0 (nth a (sel p (cfr g)) 0 + cfu_of g p a - ev_of g p).
Proof.
  intros Hsz Ha. destruct (sel_length g p Hsz) as [_ Lr].
  unfold CFRPlus_update. simpl. rewrite sel_upd_same.
  rewrite (nth_for_update
             (fun a x => fmax 0 (x +
                nth a (fst (cfu_ev g p (GetCurrentStrategy g p)
                                   (GetCurrentStrategy g (other p)))) 0 -
                snd (cfu_ev g p (GetCurrentStrategy g p)
                            (GetCurrentStrategy g (other p))))))
    by lia.
  rewrite (proj2 (Nat.ltb_lt a (size g))) by exact Ha.
  rewrite cfu_ev_fst, cfu_ev_snd by exact Ha. reflexivity.
Qed.

Lemma CFRPlus_update_strategy (p : Z) (g : MatrixGame) (a : nat) :
  sized g -> (a < size g)%nat ->
  nth a (sel p (strategy (CFRPlus_update p g))) 0 =
  nth a (sel p (strategy g)) 0 +
  nth a (GetCurrentStrategy g p) 0 * of_int (iterationCount g)
                                   * of_int (iterationCount g).
Proof.
  intros Hsz Ha. destruct (sel_length g p Hsz) as [Ls _].
  unfold CFRPlus_update. simpl. rewrite sel_upd_same.
  rewrite (nth_accumulate
             (fun a => nth a (GetCurrentStrategy g p) 0
                       * of_int (iterationCount g) * of_int (iterationCount g)))
    by exact Ls.
  rewrite (proj2 (Nat.ltb_lt a (size g))) by exact Ha. reflexivity.
Qed.

(** Every cell of [cfr[p]] after [CFRPlus(p)] is a maximum with zero (or, past
    the end of the vector, the default of the reading). *)
Lemma CFRPlus_update_cfr_nonneg (p : Z) (g : MatrixGame) (i : nat) :
  sized g -> 0 <= nth i (sel p (cfr (CFRPlus_update p g))) 0.
Proof.
  intros Hsz. destruct (Nat.lt_ge_cases i (size g)) as [Hi|Hi].
  - rewrite CFRPlus_update_cfr by assumption. apply fmax_lower.
  - destruct (sel_length g p Hsz) as [_ Lr].
    rewrite nth_overflow; [apply Qle_refl|].
    unfold CFRPlus_update. simpl. rewrite sel_upd_same.
    rewrite (length_for_vset
               (fun a r => fmax 0 (nth a r 0 +
                  nth a (fst (cfu_ev g p (GetCurrentStrategy g p)
                                     (GetCurrentStrategy g (other p)))) 0 -
                  snd (cfu_ev g p (GetCurrentStrategy g p)
                              (GetCurrentStrategy g (other p)))))).
    lia.
Qed.

(** ** C3: CFR+ keeps the regrets non-negative *)

Lemma sel_upd_split {A : Type} (p q : Z) (x : A) (arr : A * A) :
  (sel q (upd p x arr) = x /\ sel q arr = sel p arr) \/
  sel q (upd p x arr) = sel q arr.
Proof.
  unfold sel, upd. destruct (p =? 0)%Z, (q =? 0)%Z; simpl; auto.
Qed.

Lemma CFRPlus_update_regrets_nonneg (p : Z) (g : MatrixGame) :
  sized g -> regrets_nonneg g -> regrets_nonneg (CFRPlus_update p g).
Proof.
  intros Hsz Hr q i.
  pose proof (CFRPlus_update_cfr_nonneg p g i Hsz) as Hp.
  revert Hp. unfold CFRPlus_update. simpl. rewrite sel_upd_same.
  intros Hp.
  match goal with
  | |- 0 <= nth i (sel q (upd p ?v (cfr g))) 0 =>
      destruct (sel_upd_split p q v (cfr g)) as [[E _]|E]; rewrite E
  end.
  - exact Hp.
  - apply Hr.
Qed.

Lemma exec_Iteration_CFRPlus (g : MatrixGame) :
  exec (Iteration 2) g = Some (CFRPlus_update 1 (CFRPlus_update 0 (tick g))).
Proof. reflexivity. Qed.

Lemma CFRPlus_runs_regrets_nonneg (k : nat) (g g' : MatrixGame) :
  Inv g -> regrets_nonneg g ->
  iterate (repeat 2%Z k) g = Some g' -> regrets_nonneg g'.
Proof.
  revert g. induction k as [|k IH]; intros g HI Hr E; cbn [repeat iterate] in E.
  - injection E as <-. exact Hr.
  - rewrite exec_Iteration_CFRPlus in E.
    apply (IH _ (CFRPlus_update_Inv 1 _ (CFRPlus_update_Inv 0 _ (Inv_tick g HI)))).
    + apply CFRPlus_update_regrets_nonneg.
      * apply (CFRPlus_update_Inv 0 _ (Inv_tick g HI)).
      * apply CFRPlus_update_regrets_nonneg; [apply HI | exact Hr].
    + exact E.
Qed.

(** C3.  From the constructed (all-zero) state, after any number [k] of CFR+
    iterations every entry of both regret vectors is non-negative, and in
    that state one more per-player CFR+ update writes
    [max(0, R[player][a] + cfu[a] - ev)] into every cell of [R[player]]. *)
Theorem C3_CFRPlus_regrets_nonneg (n : nat) (rnd : nat -> Q) (k : nat)
        (g : MatrixGame) :
  (0 < n)%nat -> (forall j, in_range (rnd j)) ->
  iterate (repeat 2%Z k) (MatrixGame_new n rnd) = Some g ->
  (forall p i, 0 <= nth i (sel p (cfr g)) 0) /\
  (forall p a, (a < size g)%nat ->
      nth a (sel p (cfr (CFRPlus_update p g))) 0 =
      fmax 0 (nth a (sel p (cfr g)) 0 + cfu_of g p a - ev_of g p)).
Proof.
  intros Hn Hrnd E.
  pose proof (MatrixGame_new_Inv n rnd Hn Hrnd) as HI0.
  split.
  - apply (CFRPlus_runs_regrets_nonneg k _ g HI0); [|exact E].
    intros p i. apply (sel_cases (fun v => 0 <= nth i v 0)); simpl;
      rewrite nth_vnew; apply Qle_refl.
  - intros p a Ha. apply CFRPlus_update_cfr; [|exact Ha].
    apply (iterate_reaches_Inv _ _ g HI0 E).
Qed.

(** ** The Fictitious Play update in exact arithmetic *)

(** With exact sums, in a well-formed state the Fictitious Play update of
    a player is defined, adds 1 to one cell of [strategy[player]] and
    changes nothing else; the cell is the first action whose exact expected
    payoff against the opponent's average strategy is the largest. *)
Lemma FictitiousPlay_player_exact (g : MatrixGame) (p : Z) :
  Inv g -> is_player p ->
  exists best g',
    FictitiousPlay_player p g = Some (tt, g') /\
    (best < size g)%nat /\
    (forall a, (a < size g)%nat -> expected g p a <= expected g p best) /\
    (forall a, (a < best)%nat -> expected g p a < expected g p best) /\
    nth best (sel p (strategy g')) 0 = nth best (sel p (strategy g)) 0 + 1 /\
    (forall i, i <> best ->
        nth i (sel p (strategy g')) 0 = nth i (sel p (strategy g)) 0) /\
    length (sel p (strategy g')) = length (sel p (strategy g)) /\
    sel (other p) (strategy g') = sel (other p) (strategy g) /\
    cfr g' = cfr g /\ payoffs g' = payoffs g /\ size g' = size g /\
    iterationCount g' = iterationCount g.
Proof.
  intros HI Hp.
  destruct (FictitiousPlay_player_defined p g HI)
    as (best & Hlt & Hmax & Hfirst & E).
  destruct HI as (_ & Hsz & _). destruct (sel_length g p Hsz) as [Ls _].
  exists best. eexists. split; [exact E|].
  split; [exact Hlt|]. split; [exact Hmax|]. split; [exact Hfirst|].
  simpl. rewrite sel_upd_same. split; [|split; [|split; [|split]]].
  - apply nth_vset_same. lia.
  - intros i Hi. apply nth_vset_other. auto.
  - apply length_vset.
  - destruct Hp as [-> | ->]; reflexivity.
  - auto.
Qed.

(** ** C8: the strategy accumulators only grow *)

Lemma strategy_le_refl (g : MatrixGame) : strategy_le g g.
Proof. intros p a. apply Qle_refl. Qed.

Lemma strategy_le_trans (g1 g2 g3 : MatrixGame) :
  strategy_le g1 g2 -> strategy_le g2 g3 -> strategy_le g1 g3.
Proof. intros H1 H2 p a. eapply Qle_trans; [apply H1 | apply H2]. Qed.

Lemma strategy_le_set_strategy (p : Z) (v : list Q) (g0 g : MatrixGame) :
  strategy g0 = strategy g ->
  (forall a, nth a (sel p (strategy g)) 0 <= nth a v 0) ->
  strategy_le g (set_strategy p v g0).
Proof.
  intros E H q a. simpl. rewrite E.
  destruct (sel_upd_split p q v (strategy g)) as [[E1 E2]|E1]; rewrite E1.
  - rewrite E2. apply H.
  - apply Qle_refl.
Qed.

Lemma accumulate_ge (inc : nat -> Q) (n : nat) (v : list Q) (i : nat) :
  length v = n ->
  (forall a, (a < n)%nat -> 0 <= inc a) ->
  nth i v 0 <=
  nth i (for_range n (fun a s => vset a (nth a s 0 + inc a) s) v) 0.
Proof.
  intros Hl Hinc. rewrite nth_accumulate by exact Hl.
  destruct (i <? n)%nat eqn:E; [|apply Qle_refl].
  apply Nat.ltb_lt in E. specialize (Hinc i E). lra.
Qed.

Lemma CFR_update_grows (p : Z) (g : MatrixGame) :
  sized g -> strategy_le g (CFR_update p g).
Proof.
  intros Hsz. destruct (sel_length g p Hsz) as [Ls _].
  unfold CFR_update. apply strategy_le_set_strategy; [reflexivity|].
  intros a. simpl.
  apply (accumulate_ge (fun a => nth a (GetCurrentStrategy g p) 0)); auto.
  intros i Hi. apply GetCurrentStrategy_nonneg, Hi.
Qed.

Lemma CFRPlus_update_grows (p : Z) (g : MatrixGame) :
  sized g -> strategy_le g (CFRPlus_update p g).
Proof.
  intros Hsz. destruct (sel_length g p Hsz) as [Ls _].
  unfold CFRPlus_update. apply strategy_le_set_strategy; [reflexivity|].
  intros a. simpl.
  apply (accumulate_ge
           (fun a => nth a (GetCurrentStrategy g p) 0
                     * of_int (iterationCount g) * of_int (iterationCount g)));
    auto.
  intros i Hi. apply weight_nonneg, GetCurrentStrategy_nonneg, Hi.
Qed.

Lemma FictitiousPlay_player_grows (p : Z) (g g' : MatrixGame) :
  FictitiousPlay_player p g = Some (tt, g') -> strategy_le g g'.
Proof.
  unfold FictitiousPlay_player. destruct (_ && _)%bool; [|discriminate].
  intros E. injection E as <-.
  apply strategy_le_set_strategy; [reflexivity|]. intros a.
  match goal with
  | |- _ <= nth a (vset ?i ?x ?v) 0 =>
      destruct (Nat.eq_dec i a) as [Ea|Ea];
      [ destruct (Nat.lt_ge_cases a (length v)) as [Hl|Hl] | ]
  end.
  - rewrite Ea, nth_vset_same by exact Hl. lra.
  - rewrite !nth_overflow; [apply Qle_refl | | exact Hl].
    rewrite length_vset. exact Hl.
  - rewrite nth_vset_other by exact Ea. apply Qle_refl.
Qed.

Lemma Iteration_grows (alg : Z) (g g' : MatrixGame) :
  Inv g -> Iteration alg g = Some (tt, g') -> strategy_le g g'.
Proof.
  intros HI.
  destruct (Iteration_cases alg) as [[_ E]|[[_ E]|(_ & _ & E)]]; rewrite E.
  - rewrite FictitiousPlay_run.
    destruct (FictitiousPlay_player 0 (tick g)) as [[[] g1]|] eqn:E1;
      [|discriminate].
    intros E2.
    apply (strategy_le_trans g g1 g').
    + apply (FictitiousPlay_player_grows 0 (tick g) g1 E1).
    + apply (FictitiousPlay_player_grows 1 g1 g' E2).
  - rewrite CFR_run. intros E1. injection E1 as <-.
    apply (strategy_le_trans g (CFR_update 0 (tick g))).
    + apply (CFR_update_grows 0 (tick g)). apply HI.
    + apply CFR_update_grows. apply (CFR_update_Inv 0 _ (Inv_tick g HI)).
  - rewrite CFRPlus_run. intros E1. injection E1 as <-.
    apply (strategy_le_trans g (CFRPlus_update 0 (tick g))).
    + apply (CFRPlus_update_grows 0 (tick g)). apply HI.
    + apply CFRPlus_update_grows. apply (CFRPlus_update_Inv 0 _ (Inv_tick g HI)).
Qed.

(** C8.  Under any sequence of iterations, of any of the three algorithms,
    started in a well-formed state, the run is defined and no cell of a
    strategy accumulator ever decreases.  What a per-player update adds to
    the cells of its own accumulator is non-negative: the current strategy
    [sp[a]] for CFR, [sp[a] * t * t] for CFR+ ([t] the iteration counter),
    and 1 on a single cell for Fictitious Play. *)
Theorem C8_strategy_accumulators_monotone (algs : list Z) (g : MatrixGame) :
  Inv g ->
  (exists g', iterate algs g = Some g' /\
     forall p a, nth a (sel p (strategy g)) 0 <= nth a (sel p (strategy g')) 0) /\
  (forall p a, (a < size g)%nat ->
     nth a (sel p (strategy (CFR_update p g))) 0 =
       nth a (sel p (strategy g)) 0 + nth a (GetCurrentStrategy g p) 0 /\
     0 <= nth a (GetCurrentStrategy g p) 0 /\
     nth a (sel p (strategy (CFRPlus_update p g))) 0 =
       nth a (sel p (strategy g)) 0 +
       nth a (GetCurrentStrategy g p) 0 * of_int (iterationCount g)
                                        * of_int (iterationCount g) /\
     0 <= nth a (GetCurrentStrategy g p) 0 * of_int (iterationCount g)
                                           * of_int (iterationCount g)) /\
  (forall p, exists best,
     (best < size g)%nat /\
     FictitiousPlay_player p g =
     Some (tt, set_strategy p
                 (vset best (nth best (sel p (strategy g)) 0 + 1)
                       (sel p (strategy g))) g)).
Proof.
  intros HI. split; [|split].
  - revert g HI. induction algs as [|alg rest IH]; intros g HI.
    + exists g. split; [reflexivity|]. apply strategy_le_refl.
    + destruct (Iteration_Inv alg g HI) as (g1 & E1 & HI1).
      destruct (IH g1 HI1) as (g' & E' & Hle).
      exists g'. split.
      * cbn [iterate]. unfold exec. rewrite E1. exact E'.
      * apply (strategy_le_trans g g1 g'); [|exact Hle].
        apply (Iteration_grows alg g g1 HI E1).
  - intros p a Ha. destruct HI as (_ & Hsz & _).
    split; [apply CFR_update_strategy; assumption|].
    split; [apply GetCurrentStrategy_nonneg, Ha|].
    split; [apply CFRPlus_update_strategy; assumption|].
    apply weight_nonneg, GetCurrentStrategy_nonneg, Ha.
  - intros p.
    destruct (FictitiousPlay_player_defined p g HI) as (best & Hlt & _ & _ & E).
    exists best. split; [exact Hlt | exact E].
Qed.

(** ** Exploitability in exact arithmetic *)

Lemma rsum_scale_l (n : nat) (f : nat -> Q) (c : Q) :
  rsum n (fun i => c * f i) == c * rsum n f.
Proof.
  rewrite (rsum_ext n _ (fun i => f i * c)) by (intros; ring).
  rewrite rsum_scale. ring.
Qed.

(** The value of a strategy pair to player 0 and its value to player 1
    cancel: the game is zero-sum. *)
Lemma zero_sum_values (n : nat) (u v : nat -> Q) (m : nat -> nat -> Q) :
  rsum n (fun a => u a * rsum n (fun b => v b * m a b)) +
  rsum n (fun b => v b * rsum n (fun a => u a * - m a b)) == 0.
Proof.
  rewrite (rsum_ext n (fun a => u a * rsum n (fun b => v b * m a b))
                    (fun a => rsum n (fun b => u a * (v b * m a b))))
    by (intros a _; symmetry; apply rsum_scale_l).
  rewrite (rsum_ext n (fun b => v b * rsum n (fun a => u a * - m a b))
                    (fun b => rsum n (fun a => v b * (u a * - m a b))))
    by (intros b _; symmetry; apply rsum_scale_l).
  rewrite (rsum_exchange n n (fun b a => v b * (u a * - m a b))).
  rewrite <- rsum_plus.
  rewrite (rsum_ext n _ (fun _ => 0)); [apply rsum_zero|].
  intros a _. cbv beta. rewrite <- rsum_plus.
  rewrite (rsum_ext n _ (fun _ => 0)); [apply rsum_zero|].
  intros b _. cbv beta. ring.
Qed.

Lemma expected_0 (g : MatrixGame) (a : nat) :
  expected g 0 a =
  rsum (size g) (fun b => nth b (GetNormalizedStrategy g 1) 0 *
                          nth (a * size g + b) (payoffs g) 0).
Proof. reflexivity. Qed.

Lemma expected_1 (g : MatrixGame) (b : nat) :
  expected g 1 b =
  rsum (size g) (fun a => nth a (GetNormalizedStrategy g 0) 0 *
                          - nth (a * size g + b) (payoffs g) 0).
Proof. reflexivity. Qed.

Lemma BestResponse_sum_nonneg (g : MatrixGame) :
  Inv g -> 0 <= BestResponse g 0 + BestResponse g 1.
Proof.
  intros (Hn & _ & _ & Hs).
  destruct (GetNormalizedStrategy_dist g 0 Hn (fun i _ => Hs 0%Z i)) as (_ & P0 & S0).
  destruct (GetNormalizedStrategy_dist g 1 Hn (fun i _ => Hs 1%Z i)) as (_ & P1 & S1).
  assert (V0 : rsum (size g)
                 (fun a => nth a (GetNormalizedStrategy g 0) 0 * expected g 0 a)
               <= BestResponse g 0).
  { apply convex_le; auto. intros a Ha. apply BestResponse_upper, Ha. }
  assert (V1 : rsum (size g)
                 (fun b => nth b (GetNormalizedStrategy g 1) 0 * expected g 1 b)
               <= BestResponse g 1).
  { apply convex_le; auto. intros b Hb. apply BestResponse_upper, Hb. }
  pose proof (zero_sum_values (size g)
                (fun a => nth a (GetNormalizedStrategy g 0) 0)
                (fun b => nth b (GetNormalizedStrategy g 1) 0)
                (fun a b => nth (a * size g + b) (payoffs g) 0)) as Z.
  cbv beta in Z.
  assert (E0 : rsum (size g)
                 (fun a => nth a (GetNormalizedStrategy g 0) 0 * expected g 0 a) ==
               rsum (size g)
                 (fun a => nth a (GetNormalizedStrategy g 0) 0 *
                    rsum (size g)
                      (fun b => nth b (GetNormalizedStrategy g 1) 0 *
                                nth (a * size g + b) (payoffs g) 0)))
    by (apply rsum_ext; intros a _; rewrite expected_0; reflexivity).
  assert (E1 : rsum (size g)
                 (fun b => nth b (GetNormalizedStrategy g 1) 0 * expected g 1 b) ==
               rsum (size g)
                 (fun b => nth b (GetNormalizedStrategy g 1) 0 *
                    rsum (size g)
                      (fun a => nth a (GetNormalizedStrategy g 0) 0 *
                                - nth (a * size g + b) (payoffs g) 0)))
    by (apply rsum_ext; intros b _; rewrite expected_1; reflexivity).
  rewrite <- E0, <- E1 in Z. lra.
Qed.

(** In exact arithmetic, in every reachable state [GetExploitability] is
    the mean of the two best-response values, the best-response value of a
    player is the largest expected payoff of one of its actions against the
    opponent's average strategy, and the exploitability is non-negative:
    the two values of the pair of average strategies cancel. *)
Lemma GetExploitability_exact (g : MatrixGame) :
  reachable g ->
  GetExploitability g = (BestResponse g 0 + BestResponse g 1) / 2 /\
  (forall p, is_player p ->
     (exists a, (a < size g)%nat /\ BestResponse g p = expected g p a) /\
     (forall a, (a < size g)%nat -> expected g p a <= BestResponse g p)) /\
  0 <= GetExploitability g.
Proof.
  intros Hr. pose proof (reachable_Inv g Hr) as HI.
  split; [reflexivity|]. split.
  - intros p _. split.
    + apply BestResponse_attained. exists O. split; [apply HI|].
      pose proof (expected_ge g p 0 HI). pose proof DBL_MAX_below. lra.
    + intros a Ha. apply BestResponse_upper, Ha.
  - unfold GetExploitability.
    pose proof (BestResponse_sum_nonneg g HI) as H.
    apply Qle_shift_div_l; lra.
Qed.

(** ** C1: the two per-player updates of one CFR / CFR+ iteration *)

Lemma rnd_c1_in_range (k : nat) : in_range (rnd_c1 k).
Proof. destruct k; unfold in_range; simpl; lra. Qed.

Lemma g_c1_reachable : reachable g_c1.
Proof.
  exists 2%nat, rnd_c1, []. split; [lia|]. split; [apply rnd_c1_in_range|].
  reflexivity.
Qed.

(** C1, refuted as stated.  On the fresh 2 x 2 game [g_c1], one CFR
    iteration leaves [cfr[1][0] = -1/4], while player 1's update computed
    from the state at the start of the iteration gives [-1/8]; and running
    player 1 before player 0 leaves [cfr[0][0] = 0] instead of [1/8].  The
    same happens with CFR+ on [cfr[1][1]] ([1/4] against [1/8]) and
    [cfr[0][0]] ([1/8] against [0]). *)
Lemma C1_counterexample :
  reachable g_c1 /\
  ~ accumulators_agree (CFR_update 1 (CFR_update 0 (tick g_c1)))
                       (CFR_update 0 (CFR_update 1 (tick g_c1))) /\
  ~ accumulators_agree (CFRPlus_update 1 (CFRPlus_update 0 (tick g_c1)))
                       (CFRPlus_update 0 (CFRPlus_update 1 (tick g_c1))) /\
  (exists g',
     exec (Iteration 1) g_c1 = Some g' /\
     g' = CFR_update 1 (CFR_update 0 (tick g_c1)) /\
     nth 0 (sel 1 (cfr g')) 0 == - (1 # 4) /\
     nth 0 (sel 1 (cfr (CFR_update 1 (tick g_c1)))) 0 == - (1 # 8) /\
     nth 0 (sel 0 (cfr g')) 0 == 1 # 8 /\
     nth 0 (sel 0 (cfr (CFR_update 0 (CFR_update 1 (tick g_c1))))) 0 == 0) /\
  (exists g',
     exec (Iteration 2) g_c1 = Some g' /\
     g' = CFRPlus_update 1 (CFRPlus_update 0 (tick g_c1)) /\
     nth 1 (sel 1 (cfr g')) 0 == 1 # 4 /\
     nth 1 (sel 1 (cfr (CFRPlus_update 1 (tick g_c1)))) 0 == 1 # 8 /\
     nth 0 (sel 0 (cfr g')) 0 == 1 # 8 /\
     nth 0 (sel 0 (cfr (CFRPlus_update 0 (CFRPlus_update 1 (tick g_c1))))) 0 == 0).
Proof.
  split; [apply g_c1_reachable|].
  split; [intros H; destruct (H 0%Z O) as [H1 _]; vm_compute in H1; discriminate|].
  split; [intros H; destruct (H 0%Z O) as [H1 _]; vm_compute in H1; discriminate|].
  split.
  - eexists. split; [reflexivity|]. split; [reflexivity|].
    repeat split; vm_compute; reflexivity.
  - eexists. split; [reflexivity|]. split; [reflexivity|].
    repeat split; vm_compute; reflexivity.
Qed.

Lemma GetCurrentStrategy_frame (g g' : MatrixGame) (p : Z) :
  size g' = size g -> sel p (cfr g') = sel p (cfr g) ->
  GetCurrentStrategy g' p = GetCurrentStrategy g p.
Proof.
  intros E1 E2. unfold GetCurrentStrategy. rewrite E1, E2. reflexivity.
Qed.

(** C1, amended.  One CFR (CFR+) iteration is the counter increment, then
    player 0's update, then player 1's update on the state that player 0's
    update left.  A per-player update writes only its own player's two
    accumulators (not the opponent's, nor the matrix, the size or the
    counter).  Player 0's regret and strategy increments, and player 1's
    strategy increment (its own current strategy), are those computed from
    the regrets at the start of the iteration; player 1's regret increment
    is computed with the opponent strategy read from [cfr[0]] as player 0
    has just updated it. *)
Theorem C1_updates_are_sequential (g : MatrixGame) :
  Inv g ->
  let g1 := CFR_update 0 (tick g) in
  let h1 := CFRPlus_update 0 (tick g) in
  let t := of_int (wrap32 (iterationCount g + 1)) in
  (forall s,
     sel 1 (cfr (CFR_update 0 s)) = sel 1 (cfr s) /\
     sel 1 (strategy (CFR_update 0 s)) = sel 1 (strategy s) /\
     sel 0 (cfr (CFR_update 1 s)) = sel 0 (cfr s) /\
     sel 0 (strategy (CFR_update 1 s)) = sel 0 (strategy s) /\
     sel 1 (cfr (CFRPlus_update 0 s)) = sel 1 (cfr s) /\
     sel 1 (strategy (CFRPlus_update 0 s)) = sel 1 (strategy s) /\
     sel 0 (cfr (CFRPlus_update 1 s)) = sel 0 (cfr s) /\
     sel 0 (strategy (CFRPlus_update 1 s)) = sel 0 (strategy s)) /\
  (forall p s,
     payoffs (CFR_update p s) = payoffs s /\
     size (CFR_update p s) = size s /\
     iterationCount (CFR_update p s) = iterationCount s /\
     payoffs (CFRPlus_update p s) = payoffs s /\
     size (CFRPlus_update p s) = size s /\
     iterationCount (CFRPlus_update p s) = iterationCount s) /\
  (exists g2,
     CFR g = Some (tt, g2) /\ g2 = CFR_update 1 g1 /\
     forall a, (a < size g)%nat ->
       nth a (sel 0 (cfr g2)) 0 =
         nth a (sel 0 (cfr g)) 0 + (cfu_of g 0 a - ev_of g 0) /\
       nth a (sel 1 (cfr g2)) 0 =
         nth a (sel 1 (cfr g)) 0 + (cfu_of g1 1 a - ev_of g1 1) /\
       nth a (sel 0 (strategy g2)) 0 =
         nth a (sel 0 (strategy g)) 0 + nth a (GetCurrentStrategy g 0) 0 /\
       nth a (sel 1 (strategy g2)) 0 =
         nth a (sel 1 (strategy g)) 0 + nth a (GetCurrentStrategy g 1) 0) /\
  (exists h2,
     CFRPlus g = Some (tt, h2) /\ h2 = CFRPlus_update 1 h1 /\
     forall a, (a < size g)%nat ->
       nth a (sel 0 (cfr h2)) 0 =
         fmax 0 (nth a (sel 0 (cfr g)) 0 + cfu_of g 0 a - ev_of g 0) /\
       nth a (sel 1 (cfr h2)) 0 =
         fmax 0 (nth a (sel 1 (cfr g)) 0 + cfu_of h1 1 a - ev_of h1 1) /\
       nth a (sel 0 (strategy h2)) 0 =
         nth a (sel 0 (strategy g)) 0 + nth a (GetCurrentStrategy g 0) 0 * t * t /\
       nth a (sel 1 (strategy h2)) 0 =
         nth a (sel 1 (strategy g)) 0 + nth a (GetCurrentStrategy g 1) 0 * t * t).
Proof.
  intros HI g1 h1 t.
  pose proof (Inv_tick g HI) as HI0.
  assert (Hg1 : Inv g1) by (apply CFR_update_Inv, HI0).
  assert (Hh1 : Inv h1) by (apply CFRPlus_update_Inv, HI0).
  split; [intros s; repeat split|].
  split; [intros p s; repeat split|]. split.
  - exists (CFR_update 1 g1). split; [reflexivity|]. split; [reflexivity|].
    intros a Ha. split; [|split; [|split]].
    + change (sel 0 (cfr (CFR_update 1 g1))) with (sel 0 (cfr g1)).
      apply (CFR_update_cfr 0 (tick g) a); [apply HI0 | exact Ha].
    + rewrite (CFR_update_cfr 1 g1 a); [reflexivity | apply Hg1 | exact Ha].
    + change (sel 0 (strategy (CFR_update 1 g1))) with (sel 0 (strategy g1)).
      apply (CFR_update_strategy 0 (tick g) a); [apply HI0 | exact Ha].
    + rewrite (CFR_update_strategy 1 g1 a); [| apply Hg1 | exact Ha].
      rewrite (GetCurrentStrategy_frame g g1 1); reflexivity.
  - exists (CFRPlus_update 1 h1). split; [reflexivity|]. split; [reflexivity|].
    intros a Ha. split; [|split; [|split]].
    + change (sel 0 (cfr (CFRPlus_update 1 h1))) with (sel 0 (cfr h1)).
      apply (CFRPlus_update_cfr 0 (tick g) a); [apply HI0 | exact Ha].
    + rewrite (CFRPlus_update_cfr 1 h1 a); [reflexivity | apply Hh1 | exact Ha].
    + change (sel 0 (strategy (CFRPlus_update 1 h1))) with (sel 0 (strategy h1)).
      apply (CFRPlus_update_strategy 0 (tick g) a); [apply HI0 | exact Ha].
    + rewrite (CFRPlus_update_strategy 1 h1 a); [| apply Hh1 | exact Ha].
      rewrite (GetCurrentStrategy_frame g h1 1); reflexivity.
Qed.

(** * Instances on concrete games *)

(** The invariant of a freshly constructed concrete game, and the range of
    its draws. *)
Ltac draws_in_range :=
  let k := fresh "k" in
  intros k; destruct k; unfold in_range; simpl; lra.

Ltac fresh_game_inv :=
  apply MatrixGame_new_Inv; [lia | draws_in_range].


(** The matrix is stored row by row. *)
Example g_c1_payoffs : payoffs g_c1 = [1 # 2; 0; 0; 0].
Proof. reflexivity. Qed.

(** With all payoffs zero the uniform strategies are optimal from the
    start. *)
Example zero_game_exploitability :
  GetExploitability (MatrixGame_new 2 (fun _ => 0)) == 0.
Proof. vm_compute. reflexivity. Qed.

(** One Fictitious Play iteration on [g_c1]: player 0 answers the uniform
    strategy with action 0; player 1 then answers the pure action 0 with
    action 1. *)
Example g_c1_FictitiousPlay :
  option_map strategy (exec FictitiousPlay g_c1) = Some ([1; 0], [0; 1]).
Proof. reflexivity. Qed.

(** One CFR iteration on [g_c1]. *)
Example g_c1_CFR :
  Forall2 Qeq (fst (cfr g_cfr1)) [1 # 8; - (1 # 8)] /\
  Forall2 Qeq (snd (cfr g_cfr1)) [- (1 # 4); 1 # 4] /\
  Forall2 Qeq (fst (strategy g_cfr1)) [1 # 2; 1 # 2] /\
  Forall2 Qeq (snd (strategy g_cfr1)) [1 # 2; 1 # 2].
Proof. vm_compute. repeat constructor. Qed.

(** A game without actions is outside the invariant: its best responses
    stay at the initial [-DBL_MAX] and Fictitious Play indexes cell [-1]. *)
Example empty_game_exploitability :
  GetExploitability (MatrixGame_new 0 rnd_c1) == - DBL_MAX.
Proof. vm_compute. reflexivity. Qed.

Example empty_game_FictitiousPlay :
  exec FictitiousPlay (MatrixGame_new 0 rnd_c1) = None.
Proof. reflexivity. Qed.

Lemma C1_updates_are_sequential_witness :
  Inv g_c1 /\
  exists g2, CFR g_c1 = Some (tt, g2) /\
    nth 0 (sel 1 (cfr g2)) 0 =
    nth 0 (sel 1 (cfr g_c1)) 0 +
    (cfu_of (CFR_update 0 (tick g_c1)) 1 0 - ev_of (CFR_update 0 (tick g_c1)) 1).
Proof.
  assert (HI : Inv g_c1).
  { fresh_game_inv. }
  split; [exact HI|].
  destruct (C1_updates_are_sequential g_c1 HI) as (_ & _ & (g2 & E & _ & H) & _).
  exists g2. split; [exact E|].
  apply (H O). simpl. lia.
Defined.

Lemma C3_CFRPlus_regrets_nonneg_witness :
  iterate (repeat 2%Z 1) (MatrixGame_new 2 rnd_c1) = Some g_plus1 /\
  forall p i, 0 <= nth i (sel p (cfr g_plus1)) 0.
Proof.
  split; [reflexivity|].
  apply (C3_CFRPlus_regrets_nonneg 2 rnd_c1 1 g_plus1).
  - lia.
  - draws_in_range.
  - reflexivity.
Defined.

Lemma C7_zero_sum_consistency_witness :
  (0 < size g_c1)%nat /\ (1 < size g_c1)%nat /\
  GetPayoff g_c1 0 0 1 = - GetPayoff g_c1 1 1 0.
Proof.
  assert (H0 : (0 < size g_c1)%nat) by (simpl; lia).
  assert (H1 : (1 < size g_c1)%nat) by (simpl; lia).
  split; [exact H0|]. split; [exact H1|].
  apply (C7_zero_sum_consistency g_c1 0 1 H0 H1).
Defined.

Lemma C8_strategy_accumulators_monotone_witness :
  Inv g_c1 /\
  exists g', iterate [0%Z; 1%Z; 2%Z] g_c1 = Some g' /\
    forall p a, nth a (sel p (strategy g_c1)) 0 <= nth a (sel p (strategy g')) 0.
Proof.
  assert (HI : Inv g_c1).
  { fresh_game_inv. }
  split; [exact HI|].
  apply (proj1 (C8_strategy_accumulators_monotone [0%Z; 1%Z; 2%Z] g_c1 HI)).
Defined.

Lemma C9_selector_default_is_CFRPlus_witness :
  (-7 <> 0)%Z /\ (-7 <> 1)%Z /\ Iteration (-7) g_c1 = CFRPlus g_c1.
Proof.
  assert (H0 : (-7 <> 0)%Z) by lia.
  assert (H1 : (-7 <> 1)%Z) by lia.
  split; [exact H0|]. split; [exact H1|].
  apply (C9_selector_default_is_CFRPlus (-7) g_c1 H0 H1).
Defined.

(** * The solver in binary64 *)

(** ** The order of binary64 *)

Ltac cmp_cases :=
  repeat match goal with
         | H : context [Z.compare ?a ?b] |- _ =>
             destruct (Z.compare_spec a b)
         | |- context [Z.compare ?a ?b] =>
             destruct (Z.compare_spec a b)
         | H : context [Pos.compare_cont Eq ?a ?b] |- _ =>
             change (Pos.compare_cont Eq a b) with (Pos.compare a b) in *;
             destruct (Pos.compare_spec a b)
         | |- context [Pos.compare_cont Eq ?a ?b] =>
             change (Pos.compare_cont Eq a b) with (Pos.compare a b) in *;
             destruct (Pos.compare_spec a b)
         end;
  simpl in *; try discriminate; try reflexivity; try lia.

Lemma SFltb_irrefl (x : spec_float) : SFltb x x = false.
Proof.
  unfold SFltb, SFcompare. destruct x as [s|s| |s m e]; try destruct s;
    try reflexivity; cmp_cases.
Qed.

Lemma SFltb_trans (x y z : spec_float) :
  SFltb x y = true -> SFltb y z = true -> SFltb x z = true.
Proof.
  unfold SFltb, SFcompare.
  destruct x as [sx|sx| |sx mx ex]; destruct y as [sy|sy| |sy my ey];
    destruct z as [sz|sz| |sz mz ez];
    try destruct sx; try destruct sy; try destruct sz;
    try discriminate; try reflexivity; intros H1 H2; cmp_cases.
Qed.

Lemma SFltb_leb_trans (x y z : spec_float) :
  SFltb x y = true -> SFleb y z = true -> SFltb x z = true.
Proof.
  unfold SFltb, SFleb, SFcompare.
  destruct x as [sx|sx| |sx mx ex]; destruct y as [sy|sy| |sy my ey];
    destruct z as [sz|sz| |sz mz ez];
    try destruct sx; try destruct sy; try destruct sz;
    try discriminate; try reflexivity; intros H1 H2; cmp_cases.
Qed.

(** ** The sign of a rounded result *)

Lemma binary_round_aux_cases (prec emax : Z) (s : bool) (m e : Z)
      (l : location) :
  binary_round_aux prec emax s m e l = S754_zero s \/
  binary_round_aux prec emax s m e l = S754_infinity s \/
  binary_round_aux prec emax s m e l = S754_nan \/
  exists m' e', binary_round_aux prec emax s m e l = S754_finite s m' e'.
Proof.
  unfold binary_round_aux.
  destruct (shr_fexp prec emax m e l) as [mrs' e'].
  destruct (shr_fexp prec emax _ e' loc_Exact) as [mrs'' e''].
  destruct (shr_m mrs'') as [|q|q];
    [left; reflexivity | | right; right; left; reflexivity].
  destruct (Z.leb e'' (Z.sub emax prec)).
  - right; right; right. exists q, e''. reflexivity.
  - right; left. reflexivity.
Qed.

Lemma sf_clear_not_neg (x : spec_float) : sf_clear x -> sf_not_neg x.
Proof.
  unfold sf_not_neg. destruct x as [s|s| |s m e]; simpl; intros H;
    try subst s; reflexivity.
Qed.

Lemma sf_pos_clear (x : spec_float) :
  SFltb (S754_zero false) x = true -> sf_clear x.
Proof.
  destruct x as [s|s| |s m e]; try destruct s; simpl; intros H;
    try discriminate; reflexivity.
Qed.

Lemma binary_round_aux_clear (prec emax : Z) (m e : Z) (l : location) :
  sf_clear (binary_round_aux prec emax false m e l).
Proof.
  destruct (binary_round_aux_cases prec emax false m e l)
    as [E|[E|[E|(m' & e' & E)]]]; rewrite E; simpl; auto.
Qed.

Lemma binary_round_clear (prec emax : Z) (m : positive) (e : Z) :
  sf_clear (binary_round prec emax false m e).
Proof.
  unfold binary_round. destruct (shl_align m e _) as [mz ez].
  apply binary_round_aux_clear.
Qed.

Lemma SFadd_not_neg (prec emax : Z) (x y : spec_float) :
  sf_not_neg x -> sf_not_neg y -> sf_not_neg (SFadd prec emax x y).
Proof.
  unfold sf_not_neg.
  destruct x as [sx|sx| |sx mx ex]; destruct y as [sy|sy| |sy my ey];
    try destruct sx; try destruct sy; simpl; intros Hx Hy;
    try discriminate; try reflexivity.
  apply sf_clear_not_neg. apply binary_round_clear.
Qed.

Lemma SFdiv_not_neg (prec emax : Z) (x y : spec_float) :
  sf_not_neg x -> sf_clear y -> sf_not_neg (SFdiv prec emax x y).
Proof.
  unfold sf_not_neg.
  destruct x as [sx|sx| |sx mx ex]; destruct y as [sy|sy| |sy my ey];
    try destruct sx; simpl; intros Hx Hy; try subst sy;
    try discriminate; try reflexivity.
  destruct (SFdiv_core_binary prec emax (Zpos mx) ex (Zpos my) ey)
    as [[mz ez] lz].
  apply sf_clear_not_neg. apply binary_round_aux_clear.
Qed.

Lemma SFmul_twice_not_neg (prec emax : Z) (x t : spec_float) :
  sf_not_neg x -> sf_not_neg (SFmul prec emax (SFmul prec emax x t) t).
Proof.
  unfold sf_not_neg.
  destruct x as [sx|sx| |sx mx ex]; destruct t as [st|st| |st mt et];
    try destruct sx; try destruct st; simpl; intros Hx;
    try discriminate; try reflexivity;
    match goal with
    | |- context [binary_round_aux ?p ?em ?s ?m ?e ?l] =>
        destruct (binary_round_aux_cases p em s m e l)
          as [E|[E|[E|(m' & e' & E)]]]; rewrite E; simpl; try reflexivity
    end;
    apply sf_clear_not_neg; apply binary_round_aux_clear.
Qed.

Lemma binary_normalize_clear (prec emax : Z) (z : Z) :
  (0 <= z)%Z -> sf_clear (binary_normalize prec emax z 0 false).
Proof.
  intros H. destruct z as [|q|q]; simpl; [reflexivity | | lia].
  apply binary_round_clear.
Qed.

(** ** The same facts on [float] *)

Open Scope float_scope.

Lemma not_neg_spec (x : float) : B64.not_neg x <-> sf_not_neg (Prim2SF x).
Proof. unfold B64.not_neg, sf_not_neg. rewrite FloatAxioms.ltb_spec. reflexivity. Qed.

Lemma fltb_irrefl (x : float) : (x <? x) = false.
Proof. rewrite FloatAxioms.ltb_spec. apply SFltb_irrefl. Qed.

Lemma fltb_trans (x y z : float) :
  (x <? y) = true -> (y <? z) = true -> (x <? z) = true.
Proof. rewrite !FloatAxioms.ltb_spec. apply SFltb_trans. Qed.

Lemma fltb_leb_trans (x y z : float) :
  (x <? y) = true -> (y <=? z) = true -> (x <? z) = true.
Proof. rewrite !FloatAxioms.ltb_spec, FloatAxioms.leb_spec. apply SFltb_leb_trans. Qed.

Lemma add_not_neg (x y : float) : B64.not_neg x -> B64.not_neg y -> B64.not_neg (x + y).
Proof.
  rewrite !not_neg_spec, FloatAxioms.add_spec. apply SFadd_not_neg.
Qed.

Lemma div_not_neg (x y : float) :
  B64.not_neg x -> (0 <? y) = true -> B64.not_neg (x / y).
Proof.
  rewrite !not_neg_spec, FloatAxioms.div_spec, FloatAxioms.ltb_spec. intros Hx Hy.
  apply SFdiv_not_neg; [exact Hx | apply sf_pos_clear, Hy].
Qed.

Lemma mul_twice_not_neg (x t : float) : B64.not_neg x -> B64.not_neg (x * t * t).
Proof.
  rewrite !not_neg_spec, !FloatAxioms.mul_spec. apply SFmul_twice_not_neg.
Qed.

Lemma pos_not_neg (x : float) : (0 <? x) = true -> B64.not_neg x.
Proof.
  rewrite not_neg_spec, FloatAxioms.ltb_spec. intros H.
  apply sf_clear_not_neg, sf_pos_clear, H.
Qed.


Lemma one_over_size_not_neg (n : nat) :
  B64.not_neg (1 / B64.of_int (Z.of_nat n)).
Proof.
  unfold B64.of_int. rewrite (proj2 (Z.ltb_ge (Z.of_nat n) 0)) by lia.
  rewrite not_neg_spec, FloatAxioms.div_spec, of_uint63_spec.
  apply SFdiv_not_neg.
  - reflexivity.
  - apply binary_normalize_clear.
    apply (Uint63.to_Z_bounded (Uint63.of_Z (Z.of_nat n))).
Qed.

(** ** Loops over vectors of any cell type *)

Lemma length_for_vset_any {A : Type} (F : nat -> list A -> A) (n : nat)
      (v : list A) :
  length (for_range n (fun a r => vset a (F a r) r) v) = length v.
Proof.
  apply (for_range_inv (fun _ r => length r = length v)); auto.
  intros i x _ H. rewrite length_vset. exact H.
Qed.

Lemma nth_for_update_any {A : Type} (d : A) (F : nat -> A -> A) (n : nat)
      (v : list A) (i : nat) :
  (n <= length v)%nat ->
  nth i (for_range n (fun a r => vset a (F a (nth a r d)) r) v) d =
  if (i <? n)%nat then F i (nth i v d) else nth i v d.
Proof.
  intros Hn.
  apply (for_range_inv
           (fun k r => length r = length v /\
                       forall j, nth j r d =
                                 if (j <? k)%nat then F j (nth j v d) else nth j v d)).
  - split; auto.
  - intros k x Hk [Hl Hx]. split.
    + rewrite length_vset. exact Hl.
    + intros j. destruct (Nat.eq_dec k j) as [->|Hne].
      * rewrite nth_vset_same by lia. rewrite Hx.
        rewrite (proj2 (Nat.ltb_ge j j)) by lia.
        rewrite (proj2 (Nat.ltb_lt j (S j))) by lia. reflexivity.
      * rewrite nth_vset_other by exact Hne. rewrite Hx.
        destruct (j <? k)%nat eqn:E1; destruct (j <? S k)%nat eqn:E2;
          try reflexivity.
        -- apply Nat.ltb_lt in E1. apply Nat.ltb_ge in E2. lia.
        -- apply Nat.ltb_ge in E1. apply Nat.ltb_lt in E2. lia.
Qed.

Lemma nth_for_fill_any {A : Type} (d0 d : A) (f : nat -> A) (n i : nat) :
  (i < n)%nat ->
  nth i (for_range n (fun a r => vset a (f a) r) (repeat d0 n)) d = f i.
Proof.
  intros Hi.
  assert (G : forall j, nth j (for_range n (fun a r => vset a (f a) r)
                                         (repeat d0 n)) d =
                        if (j <? n)%nat then f j else nth j (repeat d0 n) d).
  { apply (for_range_inv
             (fun k r => length r = n /\
                         forall j, nth j r d =
                                   if (j <? k)%nat then f j
                                   else nth j (repeat d0 n) d)).
    - split; [apply repeat_length | reflexivity].
    - intros k x Hk [Hl Hx]. split.
      + rewrite length_vset. exact Hl.
      + intros j. destruct (Nat.eq_dec k j) as [->|Hne].
        * rewrite nth_vset_same by lia.
          rewrite (proj2 (Nat.ltb_lt j (S j))) by lia. reflexivity.
        * rewrite nth_vset_other by exact Hne. rewrite Hx.
          destruct (j <? k)%nat eqn:E1; destruct (j <? S k)%nat eqn:E2;
            try reflexivity.
          -- apply Nat.ltb_lt in E1. apply Nat.ltb_ge in E2. lia.
          -- apply Nat.ltb_ge in E1. apply Nat.ltb_lt in E2. lia. }
  rewrite G. rewrite (proj2 (Nat.ltb_lt i n)) by exact Hi. reflexivity.
Qed.

Lemma length_for_fill_any {A : Type} (d0 : A) (f : nat -> A) (n : nat) :
  length (for_range n (fun a r => vset a (f a) r) (repeat d0 n)) = n.
Proof.
  rewrite (length_for_vset_any (fun a _ => f a)). apply repeat_length.
Qed.

Lemma sum_loop_fsum (n : nat) (f : nat -> float) :
  for_range n (fun i s => s + f i) 0 = B64.fsum n f.
Proof.
  induction n as [|n IH]; [reflexivity|].
  rewrite (for_range_S n (fun i s => s + f i) 0), IH. reflexivity.
Qed.

Lemma fsum_ext (n : nat) (f h : nat -> float) :
  (forall i, (i < n)%nat -> f i = h i) -> B64.fsum n f = B64.fsum n h.
Proof.
  induction n as [|n IH]; intros H; [reflexivity|].
  simpl. rewrite IH, (H n) by (auto; lia). reflexivity.
Qed.

(** ** The two normalisations, binary64 *)

Lemma B64_GetNormalizedStrategy_nth (g : B64.MatrixGame) (p : Z) (i : nat) :
  (i < B64.size g)%nat ->
  nth i (B64.GetNormalizedStrategy g p) 0 = B64.AverageStrategy g p i.
Proof.
  intros Hi. unfold B64.GetNormalizedStrategy, B64.AverageStrategy.
  rewrite (sum_loop_fsum (B64.size g)
             (fun i => nth i (sel p (B64.strategy g)) 0)).
  fold (B64.strategy_total g p).
  destruct (0 <? B64.strategy_total g p).
  - exact (nth_for_fill_any 0 0
             (fun a => nth a (sel p (B64.strategy g)) 0 / B64.strategy_total g p)
             _ i Hi).
  - exact (nth_for_fill_any 0 0
             (fun _ => 1 / B64.of_int (Z.of_nat (B64.size g))) _ i Hi).
Qed.


Lemma B64_GetCurrentStrategy_cases (g : B64.MatrixGame) (p : Z) (i : nat) :
  (i < B64.size g)%nat ->
  nth i (B64.GetCurrentStrategy g p) 0 =
  if 0 <? B64.regret_total g p
  then (if 0 <? nth i (sel p (B64.cfr g)) 0
        then nth i (sel p (B64.cfr g)) 0 / B64.regret_total g p else 0)
  else 1 / B64.of_int (Z.of_nat (B64.size g)).
Proof.
  intros Hi. unfold B64.GetCurrentStrategy.
  rewrite (sum_loop_fsum (B64.size g)
             (fun i => B64.fmax 0 (nth i (sel p (B64.cfr g)) 0))).
  fold (B64.regret_total g p).
  destruct (0 <? B64.regret_total g p).
  - exact (nth_for_fill_any 0 0
             (fun a => if 0 <? nth a (sel p (B64.cfr g)) 0
                       then nth a (sel p (B64.cfr g)) 0 / B64.regret_total g p
                       else 0) _ i Hi).
  - exact (nth_for_fill_any 0 0
             (fun _ => 1 / B64.of_int (Z.of_nat (B64.size g))) _ i Hi).
Qed.

Lemma B64_GetCurrentStrategy_length (g : B64.MatrixGame) (p : Z) :
  length (B64.GetCurrentStrategy g p) = B64.size g.
Proof.
  unfold B64.GetCurrentStrategy.
  destruct (0 <? _).
  - exact (length_for_fill_any 0
             (fun a => if 0 <? nth a (sel p (B64.cfr g)) 0
                       then nth a (sel p (B64.cfr g)) 0 /
                            _
                       else 0) _).
  - apply length_for_fill_any.
Qed.

Lemma not_neg_zero : B64.not_neg 0.
Proof. reflexivity. Qed.

Lemma not_neg_one : B64.not_neg 1.
Proof. reflexivity. Qed.


Lemma B64_GetCurrentStrategy_not_neg (g : B64.MatrixGame) (p : Z) (i : nat) :
  B64.not_neg (nth i (B64.GetCurrentStrategy g p) 0).
Proof.
  destruct (Nat.lt_ge_cases i (B64.size g)) as [Hi|Hi].
  - rewrite B64_GetCurrentStrategy_cases by exact Hi.
    destruct (0 <? B64.regret_total g p) eqn:Et.
    + destruct (0 <? nth i (sel p (B64.cfr g)) 0) eqn:Er.
      * apply div_not_neg; [apply pos_not_neg, Er | exact Et].
      * apply not_neg_zero.
    + apply one_over_size_not_neg.
  - rewrite nth_overflow; [apply not_neg_zero|].
    rewrite B64_GetCurrentStrategy_length. exact Hi.
Qed.

(** ** Expected payoffs, binary64 *)

Lemma B64_GetPayoff_payoff (g : B64.MatrixGame) (p : Z) (a b : nat) :
  B64.GetPayoff g p a b = B64.payoff g p a b.
Proof. reflexivity. Qed.

Lemma other_player (p : Z) : is_player p -> other p = (1 - p)%Z.
Proof. intros [-> | ->]; reflexivity. Qed.

Lemma B64_payoff_sum_expected (g : B64.MatrixGame) (p : Z) (a : nat) :
  is_player p ->
  B64.payoff_sum g p (B64.GetNormalizedStrategy g (other p)) a =
  B64.expected_payoff g p a.
Proof.
  intros Hp. unfold B64.payoff_sum, B64.expected_payoff.
  rewrite (sum_loop_fsum (B64.size g)
             (fun b => nth b (B64.GetNormalizedStrategy g (other p)) 0 *
                       B64.GetPayoff g p a b)).
  apply fsum_ext. intros b Hb.
  rewrite B64_GetNormalizedStrategy_nth by exact Hb.
  rewrite (other_player p Hp). reflexivity.
Qed.

(** The loop of [BestResponse], for any sequence of sums: no sum is above
    the result, which is one of the sums or the initial value. *)
Lemma max_loop_spec (n : nat) (E : nat -> float) (m0 : float) :
  let r := for_range n (fun a m => if m <? E a then E a else m) m0 in
  (forall a, (a < n)%nat -> (r <? E a) = false) /\
  ((exists a, (a < n)%nat /\ r = E a) \/
   (r = m0 /\ forall a, (a < n)%nat -> (m0 <? E a) = false)).
Proof.
  cbv zeta.
  apply (for_range_inv
           (fun k r =>
              (forall a, (a < k)%nat -> (r <? E a) = false) /\
              ((exists a, (a < k)%nat /\ r = E a) \/
               (r = m0 /\ forall a, (a < k)%nat -> (m0 <? E a) = false)))).
  - split; [intros a Ha; lia|]. right. split; [reflexivity|]. intros a Ha. lia.
  - intros k m Hk (Hup & Hat).
    destruct (m <? E k) eqn:Em.
    + split.
      * intros a Ha. destruct (Nat.eq_dec a k) as [->|Hne].
        -- apply fltb_irrefl.
        -- destruct (E k <? E a) eqn:Ea; [|reflexivity].
           assert (H : (m <? E a) = false) by (apply Hup; lia).
           rewrite (fltb_trans m (E k) (E a) Em Ea) in H. discriminate.
      * left. exists k. split; [lia | reflexivity].
    + split.
      * intros a Ha. destruct (Nat.eq_dec a k) as [->|Hne];
          [exact Em | apply Hup; lia].
      * destruct Hat as [(a & Ha & Ea)|(E0 & Hall)].
        -- left. exists a. split; [lia | exact Ea].
        -- right. split; [exact E0|]. intros a Ha.
           destruct (Nat.eq_dec a k) as [->|Hne];
             [rewrite <- E0; exact Em | apply Hall; lia].
Qed.

(** The search loop of [FictitiousPlay(int)], for any sequence of sums:
    nothing found, or the first index whose sum no other sum exceeds. *)
Lemma search_loop_spec (n : nat) (E : nat -> float) (m0 : float) :
  let st := for_range n
              (fun a (st : float * Z) =>
                 if fst st <? E a then (E a, Z.of_nat a) else st)
              (m0, (-1)%Z) in
  (snd st = (-1)%Z /\ fst st = m0 /\
   forall a, (a < n)%nat -> (m0 <? E a) = false) \/
  (exists best, (best < n)%nat /\ snd st = Z.of_nat best /\
     fst st = E best /\ (m0 <? E best) = true /\
     (forall a, (a < n)%nat -> (E best <? E a) = false) /\
     (forall a, (a < best)%nat -> (E best <=? E a) = false)).
Proof.
  cbv zeta.
  apply (for_range_inv
           (fun k (st : float * Z) =>
              (snd st = (-1)%Z /\ fst st = m0 /\
               forall a, (a < k)%nat -> (m0 <? E a) = false) \/
              (exists best, (best < k)%nat /\ snd st = Z.of_nat best /\
                 fst st = E best /\ (m0 <? E best) = true /\
                 (forall a, (a < k)%nat -> (E best <? E a) = false) /\
                 (forall a, (a < best)%nat -> (E best <=? E a) = false)))).
  - left. repeat split. intros a Ha. lia.
  - intros k st Hk IH.
    assert (Hbelow : forall a, (a < k)%nat -> (fst st <? E a) = false).
    { destruct IH as [(_ & Em & Hall)|(best & _ & _ & Em & _ & Hmax & _)];
        rewrite Em; assumption. }
    assert (Hm0 : fst st = m0 \/ (m0 <? fst st) = true).
    { destruct IH as [(_ & Em & _)|(best & _ & _ & Em & Hbig & _)];
        [left; exact Em | right; rewrite Em; exact Hbig]. }
    destruct (fst st <? E k) eqn:Em.
    + right. exists k. simpl. split; [lia|]. split; [reflexivity|].
      split; [reflexivity|]. split; [|split].
      * destruct Hm0 as [E0|H0]; [rewrite <- E0; exact Em|].
        apply (fltb_trans m0 (fst st) (E k) H0 Em).
      * intros a Ha. destruct (Nat.eq_dec a k) as [->|Hne];
          [apply fltb_irrefl|].
        destruct (E k <? E a) eqn:Ea; [|reflexivity].
        assert (H : (fst st <? E a) = false) by (apply Hbelow; lia).
        rewrite (fltb_trans _ _ _ Em Ea) in H. discriminate.
      * intros a Ha. destruct (E k <=? E a) eqn:Ea; [|reflexivity].
        assert (H : (fst st <? E a) = false) by (apply Hbelow; lia).
        rewrite (fltb_leb_trans _ _ _ Em Ea) in H. discriminate.
    + destruct IH as [(Hb & E0 & Hall)|(best & Hlt & Hb & Eb & Hbig & Hmax & Hfirst)].
      * left. split; [exact Hb|]. split; [exact E0|]. intros a Ha.
        destruct (Nat.eq_dec a k) as [->|Hne];
          [rewrite <- E0; exact Em | apply Hall; lia].
      * right. exists best. split; [lia|]. split; [exact Hb|].
        split; [exact Eb|]. split; [exact Hbig|]. split; [|exact Hfirst].
        intros a Ha. destruct (Nat.eq_dec a k) as [->|Hne];
          [rewrite <- Eb; exact Em | apply Hmax; lia].
Qed.

Lemma for_range_ext {St : Type} (n : nat) (f h : nat -> St -> St) (s : St) :
  (forall i x, (i < n)%nat -> f i x = h i x) ->
  for_range n f s = for_range n h s.
Proof.
  intros H.
  apply (for_range_inv (fun k x => x = for_range k h s)); [reflexivity|].
  intros i x Hi ->. rewrite for_range_S. apply H, Hi.
Qed.

Lemma B64_BestResponse_loop (g : B64.MatrixGame) (p : Z) :
  is_player p ->
  B64.BestResponse g p =
  for_range (B64.size g)
    (fun a m => if m <? B64.expected_payoff g p a
                then B64.expected_payoff g p a else m)
    (- B64.DBL_MAX).
Proof.
  intros Hp. unfold B64.BestResponse. apply for_range_ext.
  intros a m _. cbv zeta. rewrite (B64_payoff_sum_expected g p a Hp).
  reflexivity.
Qed.

Lemma B64_best_action_loop (g : B64.MatrixGame) (p : Z) :
  is_player p ->
  B64.best_action g p =
  for_range (B64.size g)
    (fun a (st : float * Z) =>
       if fst st <? B64.expected_payoff g p a
       then (B64.expected_payoff g p a, Z.of_nat a) else st)
    (- B64.DBL_MAX, (-1)%Z).
Proof.
  intros Hp. unfold B64.best_action. apply for_range_ext.
  intros a m _. cbv zeta. rewrite (B64_payoff_sum_expected g p a Hp).
  reflexivity.
Qed.


(** ** Well-formed states in binary64 *)

Lemma B64_sel_pair {A : Type} (p : Z) (x : A) : sel p (x, x) = x.
Proof. unfold sel. destruct (p =? 0)%Z; reflexivity. Qed.

Lemma B64_CreateRandom_length (n : nat) (rnd : nat -> float)
      (pay : list float) :
  length (B64.CreateRandom n rnd pay) = length pay.
Proof.
  unfold B64.CreateRandom.
  apply (for_range_inv (fun _ st => length (fst st) = length pay)); auto.
  intros a st _ Ha.
  apply (for_range_inv (fun _ st' => length (fst st') = length pay)); auto.
  intros b st' _ Hb. simpl. rewrite length_vset. exact Hb.
Qed.

Lemma B64_new_Inv (n : nat) (rnd : nat -> float) :
  (Z.of_nat (n * n) <= INT_MAX)%Z -> B64.Inv (B64.MatrixGame_new n rnd).
Proof.
  intros Hn. split; [split; [exact Hn|]; split; [|split]|]; simpl.
  - rewrite B64_CreateRandom_length. apply repeat_length.
  - intros p. rewrite B64_sel_pair. apply repeat_length.
  - intros p. rewrite B64_sel_pair. apply repeat_length.
  - intros p i. rewrite B64_sel_pair. unfold B64.vnew.
    rewrite nth_repeat. exact not_neg_zero.
Qed.

Lemma B64_Inv_set_strategy (p : Z) (v : list float) (g : B64.MatrixGame) :
  B64.Inv g -> length v = B64.size g ->
  (forall i, B64.not_neg (nth i v 0)) ->
  B64.Inv (B64.set_strategy p v g).
Proof.
  intros ((Hn & Hp & Hs & Hc) & Hpos) Hl Hv.
  split; [split; [exact Hn|]; split; [exact Hp|]; split; [|exact Hc]|].
  - intros q. simpl.
    destruct (sel_upd_cases p q v (B64.strategy g)) as [-> | ->];
      [exact Hl | apply Hs].
  - intros q i. simpl.
    destruct (sel_upd_cases p q v (B64.strategy g)) as [-> | ->];
      [apply Hv | apply Hpos].
Qed.

Lemma B64_Inv_set_cfr (p : Z) (v : list float) (g : B64.MatrixGame) :
  B64.Inv g -> length v = B64.size g -> B64.Inv (B64.set_cfr p v g).
Proof.
  intros ((Hn & Hp & Hs & Hc) & Hpos) Hl.
  split; [split; [exact Hn|]; split; [exact Hp|]; split; [exact Hs|]|exact Hpos].
  intros q. simpl.
  destruct (sel_upd_cases p q v (B64.cfr g)) as [-> | ->];
    [exact Hl | apply Hc].
Qed.

Lemma B64_Inv_tick (g : B64.MatrixGame) : B64.Inv g -> B64.Inv (B64.tick g).
Proof. intros Hg. exact Hg. Qed.

Lemma B64_FictitiousPlay_player_Inv (p : Z) (g g' : B64.MatrixGame) :
  B64.FictitiousPlay_player p g = Some (tt, g') ->
  B64.Inv g -> B64.Inv g'.
Proof.
  unfold B64.FictitiousPlay_player. cbv zeta.
  destruct (_ && _)%bool; [|discriminate].
  intros E Hg. injection E as <-.
  pose proof Hg as ((_ & _ & Hs & _) & Hpos).
  apply B64_Inv_set_strategy; [exact Hg| |].
  - rewrite length_vset. apply Hs.
  - intros i.
    destruct (nth_vset_cases (Z.to_nat (snd (B64.best_action g p))) i
                (nth (Z.to_nat (snd (B64.best_action g p)))
                     (sel p (B64.strategy g)) 0 + 1) 0
                (sel p (B64.strategy g))) as [-> | ->].
    + apply add_not_neg; [apply Hpos | exact not_neg_one].
    + apply Hpos.
Qed.

Lemma B64_Inv_accumulate (F : nat -> float -> float) (p : Z)
      (g : B64.MatrixGame) :
  B64.Inv g ->
  (forall a x, B64.not_neg x -> B64.not_neg (F a x)) ->
  B64.Inv
    (B64.set_strategy p
       (for_range (B64.size g)
          (fun a s => vset a (F a (nth a s 0)) s)
          (sel p (B64.strategy g))) g).
Proof.
  intros Hg HF.
  pose proof Hg as ((_ & _ & Hs & _) & Hpos).
  apply B64_Inv_set_strategy; [exact Hg| |].
  - rewrite (length_for_vset_any (fun a s => F a (nth a s 0))).
    apply Hs.
  - intros i. rewrite nth_for_update_any.
    + destruct (i <? B64.size g)%nat; [apply HF|]; apply Hpos.
    + rewrite (Hs p). apply Nat.le_refl.
Qed.

Lemma B64_CFR_update_Inv (p : Z) (g : B64.MatrixGame) :
  B64.Inv g -> B64.Inv (B64.CFR_update p g).
Proof.
  intros Hg. unfold B64.CFR_update. cbv zeta.
  match goal with
  | |- B64.Inv (B64.set_strategy _ _ ?g1) =>
      assert (Hg1 : B64.Inv g1)
  end.
  { apply B64_Inv_set_cfr; [exact Hg|].
    rewrite (length_for_vset_any
               (fun a r => nth a r 0 +
                           (nth a (fst (B64.cfu_ev g p
                                          (B64.GetCurrentStrategy g p)
                                          (B64.GetCurrentStrategy g (other p))))
                                0 -
                            snd (B64.cfu_ev g p
                                   (B64.GetCurrentStrategy g p)
                                   (B64.GetCurrentStrategy g (other p)))))).
    apply Hg. }
  apply (B64_Inv_accumulate
           (fun a x => x + nth a (B64.GetCurrentStrategy g p) 0) p _ Hg1).
  intros a x Hx. apply add_not_neg; [exact Hx|].
  apply B64_GetCurrentStrategy_not_neg.
Qed.

Lemma B64_CFRPlus_update_Inv (p : Z) (g : B64.MatrixGame) :
  B64.Inv g -> B64.Inv (B64.CFRPlus_update p g).
Proof.
  intros Hg. unfold B64.CFRPlus_update. cbv zeta.
  match goal with
  | |- B64.Inv (B64.set_strategy _ _ ?g1) =>
      assert (Hg1 : B64.Inv g1)
  end.
  { apply B64_Inv_set_cfr; [exact Hg|].
    rewrite (length_for_vset_any
               (fun a r => B64.fmax 0
                           (nth a r 0 +
                            nth a (fst (B64.cfu_ev g p
                                          (B64.GetCurrentStrategy g p)
                                          (B64.GetCurrentStrategy g (other p))))
                                0 -
                            snd (B64.cfu_ev g p
                                   (B64.GetCurrentStrategy g p)
                                   (B64.GetCurrentStrategy g (other p)))))).
    apply Hg. }
  match goal with
  | |- B64.Inv (B64.set_strategy _ _ ?g1) =>
      apply (B64_Inv_accumulate
               (fun a x => x + nth a (B64.GetCurrentStrategy g p) 0
                               * B64.of_int (B64.iterationCount g1)
                               * B64.of_int (B64.iterationCount g1))
               p g1 Hg1)
  end.
  intros a x Hx. apply add_not_neg; [exact Hx|].
  apply mul_twice_not_neg, B64_GetCurrentStrategy_not_neg.
Qed.

Lemma B64_Iteration_cases (alg : Z) :
  B64.Iteration alg = B64.FictitiousPlay \/ B64.Iteration alg = B64.CFR \/
  B64.Iteration alg = B64.CFRPlus.
Proof.
  destruct alg as [|q|q]; [left; reflexivity| |right; right; reflexivity].
  destruct q; [right; right; reflexivity | right; right; reflexivity |].
  right; left; reflexivity.
Qed.

Lemma B64_Iteration_Inv (alg : Z) (g g' : B64.MatrixGame) :
  B64.exec (B64.Iteration alg) g = Some g' ->
  B64.Inv g -> B64.Inv g'.
Proof.
  intros E Hg. unfold B64.exec in E.
  destruct (B64_Iteration_cases alg) as [El|[El|El]]; rewrite El in E;
    clear El.
  - unfold B64.FictitiousPlay, B64.bind, B64.modify in E.
    destruct (B64.FictitiousPlay_player 0 (B64.tick g))
      as [[[] g1]|] eqn:E0; [|discriminate].
    destruct (B64.FictitiousPlay_player 1 g1) as [[[] g2]|] eqn:E1;
      [|discriminate].
    injection E as <-.
    apply (B64_FictitiousPlay_player_Inv 1 g1 g2 E1).
    apply (B64_FictitiousPlay_player_Inv 0 (B64.tick g) g1 E0).
    apply B64_Inv_tick, Hg.
  - unfold B64.CFR, B64.bind, B64.modify in E. injection E as <-.
    apply B64_CFR_update_Inv, B64_CFR_update_Inv, B64_Inv_tick, Hg.
  - unfold B64.CFRPlus, B64.bind, B64.modify in E. injection E as <-.
    apply B64_CFRPlus_update_Inv, B64_CFRPlus_update_Inv, B64_Inv_tick, Hg.
Qed.

Lemma B64_iterate_Inv (algs : list Z) (g g' : B64.MatrixGame) :
  B64.iterate algs g = Some g' -> B64.Inv g -> B64.Inv g'.
Proof.
  revert g. induction algs as [|alg rest IH]; intros g E Hg.
  - injection E as <-. exact Hg.
  - simpl in E. destruct (B64.exec (B64.Iteration alg) g) as [g1|] eqn:E1;
      [|discriminate].
    apply (IH g1 E). apply (B64_Iteration_Inv alg g g1 E1 Hg).
Qed.

Lemma B64_reachable_Inv (g : B64.MatrixGame) : B64.reachable g -> B64.Inv g.
Proof.
  intros (n & rnd & algs & _ & Hn & _ & _ & E).
  apply (B64_iterate_Inv algs _ g E). apply B64_new_Inv, Hn.
Qed.






(** * The claims on the binary64 model *)



(** C2.  In a reachable state [GetExploitability()] is the binary64
    average [(BestResponse(0) + BestResponse(1)) / 2]; no action of
    [player] has an expected payoff against the opponent's average
    strategy above [BestResponse(player)]; and [BestResponse(player)] is
    the expected payoff of one of the actions, unless no expected payoff
    is above the initial [-DBL_MAX], which is then the value returned. *)
Theorem C2_exploitability_binary64 (g : B64.MatrixGame) (p : Z) :
  B64.reachable g -> is_player p ->
  B64.GetExploitability g =
    (B64.BestResponse g 0 + B64.BestResponse g 1) / 2 /\
  (forall a, (a < B64.size g)%nat ->
     (B64.BestResponse g p <? B64.expected_payoff g p a) = false) /\
  ((exists a, (a < B64.size g)%nat /\
              B64.BestResponse g p = B64.expected_payoff g p a) \/
   (B64.BestResponse g p = - B64.DBL_MAX /\
    forall a, (a < B64.size g)%nat ->
      (- B64.DBL_MAX <? B64.expected_payoff g p a) = false)).
Proof.
  intros _ Hp. split; [reflexivity|].
  rewrite (B64_BestResponse_loop g p Hp).
  exact (max_loop_spec (B64.size g) (B64.expected_payoff g p) (- B64.DBL_MAX)).
Qed.


(** * Further properties of the binary64 model *)

Lemma search_loop_max (n : nat) (E : nat -> float) (m0 : float) :
  fst (for_range n
         (fun a (st : float * Z) =>
            if fst st <? E a then (E a, Z.of_nat a) else st)
         (m0, (-1)%Z)) =
  for_range n (fun a m => if m <? E a then E a else m) m0.
Proof.
  apply (for_range_inv
           (fun k (st : float * Z) =>
              fst st = for_range k (fun a m => if m <? E a then E a else m) m0));
    [reflexivity|].
  intros k st _ IH. rewrite for_range_S, <- IH.
  destruct (fst st <? E k); reflexivity.
Qed.

(** X21.  In the arithmetic of the program too, every reachable state is
    well formed: the matrix has [size * size] cells, the four accumulators
    have [size] cells, and no cell of a strategy accumulator is below
    zero. *)
Theorem X21_reachable_states_well_formed (g : B64.MatrixGame) (p : Z)
        (i : nat) :
  B64.reachable g ->
  length (B64.payoffs g) = (B64.size g * B64.size g)%nat /\
  length (sel p (B64.strategy g)) = B64.size g /\
  length (sel p (B64.cfr g)) = B64.size g /\
  (nth i (sel p (B64.strategy g)) 0 <? 0) = false.
Proof.
  intros Hr. destruct (B64_reachable_Inv g Hr) as ((_ & Hp & Hs & Hc) & Hpos).
  split; [exact Hp|]. split; [apply Hs|]. split; [apply Hc|]. apply Hpos.
Qed.

(** X22.  In the arithmetic of the program, Fictitious Play plays a best
    response: when the update of a player is defined, the action whose cell
    it increments has an expected payoff against the opponent's average
    strategy equal to the value [BestResponse] returns for that player in
    the same state. *)
Theorem X22_FictitiousPlay_attains_BestResponse (g g' : B64.MatrixGame)
        (p : Z) :
  B64.sized g -> is_player p ->
  B64.FictitiousPlay_player p g = Some (tt, g') ->
  exists best,
    (best < B64.size g)%nat /\
    nth best (sel p (B64.strategy g')) 0 =
      nth best (sel p (B64.strategy g)) 0 + 1 /\
    B64.expected_payoff g p best = B64.BestResponse g p.
Proof.
  intros (_ & _ & Hs & _) Hp E.
  pose proof (search_loop_spec (B64.size g) (B64.expected_payoff g p)
                (- B64.DBL_MAX)) as Hsearch.
  pose proof (search_loop_max (B64.size g) (B64.expected_payoff g p)
                (- B64.DBL_MAX)) as Hmax.
  cbv zeta in Hsearch.
  rewrite <- (B64_best_action_loop g p Hp) in Hsearch, Hmax.
  rewrite <- (B64_BestResponse_loop g p Hp) in Hmax.
  unfold B64.FictitiousPlay_player in E. cbv zeta in E.
  destruct Hsearch as [(Eb & _ & _)|(best & Hlt & Eb & Em & _)].
  - rewrite Eb in E. discriminate.
  - rewrite Eb, Nat2Z.id in E.
    destruct ((0 <=? Z.of_nat best)%Z &&
              (best <? length (sel p (B64.strategy g)))%nat)%bool;
      [|discriminate].
    injection E as <-. exists best. split; [exact Hlt|].
    split.
    + simpl. rewrite sel_upd_same. apply nth_vset_same.
      rewrite (Hs p). exact Hlt.
    + rewrite <- Em. exact Hmax.
Qed.

(** X23.  With [size = 0] no loop body runs: both best responses are the
    initial [-DBL_MAX], their sum overflows and the exploitability is
    minus infinity; Fictitious Play indexes cell [-1] and has no defined
    behaviour. *)
Theorem X23_empty_game_binary64 (rnd : nat -> float) (p : Z) :
  B64.BestResponse (B64.MatrixGame_new 0 rnd) p = - B64.DBL_MAX /\
  B64.GetExploitability (B64.MatrixGame_new 0 rnd) = neg_infinity /\
  B64.FictitiousPlay_player p (B64.MatrixGame_new 0 rnd) = None.
Proof. repeat split. Qed.

(** * Instances on concrete games, in binary64 *)

Lemma rnd_a_in_range (k : nat) :
  ((-1 <=? rnd_a k) && (rnd_a k <? 1))%bool = true.
Proof. do 4 (destruct k as [|k]; [reflexivity|]). destruct k; reflexivity. Qed.

Lemma rnd_b_in_range (k : nat) :
  ((-1 <=? rnd_b k) && (rnd_b k <? 1))%bool = true.
Proof. do 9 (destruct k as [|k]; [reflexivity|]). destruct k; reflexivity. Qed.

Lemma g_a3_reachable : B64.reachable g_a3.
Proof.
  exists 2%nat, rnd_a, [0; 0; 0]%Z.
  split; [lia|]. split; [vm_compute; discriminate|].
  split; [exact rnd_a_in_range|]. split; [vm_compute; discriminate|].
  vm_compute. reflexivity.
Qed.


Lemma g_b_reachable : B64.reachable g_b.
Proof.
  exists 3%nat, rnd_b, [].
  split; [lia|]. split; [vm_compute; discriminate|].
  split; [exact rnd_b_in_range|]. split; [vm_compute; discriminate|].
  reflexivity.
Qed.

(** C2, refuted as stated: the exploitability can be negative.  On the
    2 x 2 game with payoffs [{-1/8, -7/8, 11/16, -7/8}], three
    iterations of Fictitious Play leave the accumulators [S[0] = {2, 1}]
    and [S[1] = {0, 3}]; the best responses are [-0.875] and
    [0.87499999999999989], and the exploitability is [-2^-54]. *)
Lemma C2_counterexample :
  B64.iterate [0; 0; 0]%Z (B64.MatrixGame_new 2 rnd_a) = Some g_a3 /\
  B64.reachable g_a3 /\
  B64.BestResponse g_a3 0 = -0.875 /\
  B64.BestResponse g_a3 1 = 0x1.bffffffffffffp-1 /\
  B64.GetExploitability g_a3 = -0x1p-54 /\
  (B64.GetExploitability g_a3 <? 0) = true.
Proof.
  split; [vm_compute; reflexivity|]. split; [exact g_a3_reachable|].
  repeat split; vm_compute; reflexivity.
Qed.



(** On the fresh 3 x 3 game the expected payoffs of actions 0 and 1 of
    player 0 are both 0 as exact numbers; the program computes [0] and
    [2^-56] and increments cell 1. *)
Example g_b_FictitiousPlay :
  option_map (fun r => fst (B64.strategy (snd r)))
             (B64.FictitiousPlay_player 0 g_b) = Some [0; 1; 0] /\
  B64.expected_payoff g_b 0 0 = 0 /\
  B64.expected_payoff g_b 0 1 = 0x1p-56 /\
  (expected (MatrixGame_new 3 rnd_bq) 0 0 == 0)%Q /\
  (expected (MatrixGame_new 3 rnd_bq) 0 1 == 0)%Q /\
  option_map (fun r => fst (strategy (snd r)))
             (FictitiousPlay_player 0 (MatrixGame_new 3 rnd_bq))
    = Some [1; 0; 0]%Q.
Proof. repeat split; vm_compute; reflexivity. Qed.

Lemma C2_exploitability_binary64_witness :
  B64.reachable g_a3 /\ is_player 1 /\
  (forall a, (a < B64.size g_a3)%nat ->
     (B64.BestResponse g_a3 1 <? B64.expected_payoff g_a3 1 a) = false).
Proof.
  assert (Hp : is_player 1) by (right; reflexivity).
  split; [exact g_a3_reachable|]. split; [exact Hp|].
  destruct (C2_exploitability_binary64 g_a3 1 g_a3_reachable Hp)
    as (_ & H & _).
  exact H.
Defined.




Lemma X21_reachable_states_well_formed_witness :
  B64.reachable g_a3 /\ (nth 0 (sel 0 (B64.strategy g_a3)) 0 <? 0) = false.
Proof.
  split; [exact g_a3_reachable|].
  destruct (X21_reachable_states_well_formed g_a3 0 0 g_a3_reachable)
    as (_ & _ & _ & H).
  exact H.
Defined.

Lemma X22_FictitiousPlay_attains_BestResponse_witness :
  exists g' best,
    B64.FictitiousPlay_player 0 g_b = Some (tt, g') /\
    B64.expected_payoff g_b 0 best = B64.BestResponse g_b 0.
Proof.
  assert (Hs : B64.sized g_b) by (apply B64_reachable_Inv, g_b_reachable).
  assert (Hp : is_player 0) by (left; reflexivity).
  eexists.
  assert (E : B64.FictitiousPlay_player 0 g_b = Some (tt, _))
    by (vm_compute; reflexivity).
  destruct (X22_FictitiousPlay_attains_BestResponse g_b _ 0 Hs Hp E)
    as (best & _ & _ & H).
  exists best. split; [exact E | exact H].
Defined.

Close Scope float_scope.

(** * Further properties of the solver *)

(** ** Construction *)

Lemma CreateRandom_cells (n : nat) (rnd : nat -> Q) (pay : list Q) (i : nat) :
  length pay = (n * n)%nat -> (i < n * n)%nat ->
  nth i (CreateRandom n rnd pay) 0 = rnd i.
Proof.
  intros Hl Hi. unfold CreateRandom.
  pose (filled := fun (c : nat) (st : list Q * nat) =>
                    snd st = c /\ length (fst st) = (n * n)%nat /\
                    forall j, (j < c)%nat -> nth j (fst st) 0 = rnd j).
  assert (G : filled (n * n)%nat
                (for_range n
                   (fun a st =>
                      for_range n
                        (fun b st' =>
                           (vset (a * n + b) (rnd (snd st')) (fst st'),
                            S (snd st'))) st)
                   (pay, O))).
  { apply (for_range_inv (fun a st => filled (a * n)%nat st)).
    - split; [reflexivity|]. split; [exact Hl|]. intros j Hj. simpl in Hj. lia.
    - intros a st Ha Hst.
      replace (S a * n)%nat with (a * n + n)%nat by (simpl; lia).
      apply (for_range_inv (fun b st' => filled (a * n + b)%nat st')).
      + rewrite Nat.add_0_r. exact Hst.
      + intros b st' Hb (Hc & Hlen & Hcells).
        split; [simpl; lia|]. split; [simpl; rewrite length_vset; exact Hlen|].
        intros j Hj. simpl fst.
        destruct (Nat.eq_dec (a * n + b) j) as [<-|Hne].
        * rewrite nth_vset_same by nia. rewrite Hc. reflexivity.
        * rewrite nth_vset_other by exact Hne. apply Hcells. lia. }
  destruct G as (_ & _ & G). apply G. exact Hi.
Qed.

(** X1.  For a size whose square is within [int], the constructor leaves a
    game of the requested size with the counter at 0, a matrix of
    [size * size] cells holding the draws in the order they were made, row
    by row (so player 0's payoff at [(a, b)] is draw number [a * size + b],
    and player 1's is the negated draw number [b * size + a]), and four
    all-zero accumulators of [size] cells. *)
Theorem X1_constructor_state (n : nat) (rnd : nat -> Q) :
  (Z.of_nat (n * n) <= INT_MAX)%Z ->
  size (MatrixGame_new n rnd) = n /\
  GetIterationCount (MatrixGame_new n rnd) = 0%Z /\
  length (payoffs (MatrixGame_new n rnd)) = (n * n)%nat /\
  (forall a b, (a < n)%nat -> (b < n)%nat ->
     GetPayoff (MatrixGame_new n rnd) 0 a b = rnd (a * n + b)%nat /\
     GetPayoff (MatrixGame_new n rnd) 1 a b = - rnd (b * n + a)%nat) /\
  strategy (MatrixGame_new n rnd) = (repeat 0 n, repeat 0 n) /\
  cfr (MatrixGame_new n rnd) = (repeat 0 n, repeat 0 n).
Proof.
  intros _.
  split; [reflexivity|]. split; [reflexivity|].
  split; [simpl; rewrite CreateRandom_length; apply length_vnew|].
  split; [|split; reflexivity].
  intros a b Ha Hb. unfold GetPayoff. simpl.
  rewrite !CreateRandom_cells by (try apply length_vnew; nia).
  split; reflexivity.
Qed.

Lemma rsum_all_zero (n : nat) (f : nat -> Q) :
  (forall i, (i < n)%nat -> f i == 0) -> rsum n f == 0.
Proof.
  intros H. rewrite (rsum_ext n f (fun _ => 0)) by exact H. apply rsum_zero.
Qed.

Lemma sel_vnew (p : Z) (n : nat) : sel p (vnew n, vnew n) = vnew n.
Proof. unfold sel. destruct (p =? 0)%Z; reflexivity. Qed.

(** X2.  On a freshly constructed game both the average strategy and the
    current strategy of either player are uniform: the accumulators are
    all zero, so both normalisations take their fallback branch. *)
Theorem X2_fresh_strategies_uniform (n : nat) (rnd : nat -> Q) (p : Z)
        (i : nat) :
  (i < n)%nat ->
  nth i (GetNormalizedStrategy (MatrixGame_new n rnd) p) 0 =
    1 / of_int (Z.of_nat n) /\
  nth i (GetCurrentStrategy (MatrixGame_new n rnd) p) 0 =
    1 / of_int (Z.of_nat n).
Proof.
  intros Hi. split.
  - apply (GetNormalizedStrategy_uniform (MatrixGame_new n rnd) p i); [|exact Hi].
    unfold strategy_total. simpl. rewrite sel_vnew.
    rewrite rsum_all_zero; [apply Qle_refl|].
    intros j _. rewrite nth_vnew. reflexivity.
  - apply (GetCurrentStrategy_uniform (MatrixGame_new n rnd) p i); [|exact Hi].
    unfold regret_total. simpl. rewrite sel_vnew.
    rewrite rsum_all_zero; [apply Qle_refl|].
    intros j _. rewrite nth_vnew. reflexivity.
Qed.

(** ** What an iteration leaves alone *)

Lemma FictitiousPlay_player_frame (p : Z) (g g' : MatrixGame) :
  FictitiousPlay_player p g = Some (tt, g') ->
  payoffs g' = payoffs g /\ size g' = size g /\
  iterationCount g' = iterationCount g /\ cfr g' = cfr g.
Proof.
  unfold FictitiousPlay_player. destruct (_ && _)%bool; [|discriminate].
  intros E. injection E as <-. repeat split.
Qed.

Lemma Iteration_frame (alg : Z) (g g' : MatrixGame) :
  Iteration alg g = Some (tt, g') ->
  payoffs g' = payoffs g /\ size g' = size g /\
  iterationCount g' = wrap32 (iterationCount g + 1).
Proof.
  destruct (Iteration_cases alg) as [[_ E]|[[_ E]|(_ & _ & E)]]; rewrite E.
  - rewrite FictitiousPlay_run.
    destruct (FictitiousPlay_player 0 (tick g)) as [[[] g1]|] eqn:E1;
      [|discriminate].
    intros E2.
    destruct (FictitiousPlay_player_frame 0 _ _ E1) as (A1 & A2 & A3 & _).
    destruct (FictitiousPlay_player_frame 1 _ _ E2) as (B1 & B2 & B3 & _).
    rewrite B1, B2, B3, A1, A2, A3. repeat split.
  - rewrite CFR_run. intros E1. injection E1 as <-. repeat split.
  - rewrite CFRPlus_run. intros E1. injection E1 as <-. repeat split.
Qed.

Lemma iterate_cons (alg : Z) (rest : list Z) (g g' : MatrixGame) :
  iterate (alg :: rest) g = Some g' ->
  exists g1, Iteration alg g = Some (tt, g1) /\ iterate rest g1 = Some g'.
Proof.
  cbn [iterate]. unfold exec.
  destruct (Iteration alg g) as [[[] g1]|]; [|discriminate].
  intros E. exists g1. split; [reflexivity | exact E].
Qed.

Lemma iterate_frame (algs : list Z) (g g' : MatrixGame) :
  iterate algs g = Some g' -> payoffs g' = payoffs g /\ size g' = size g.
Proof.
  revert g. induction algs as [|alg rest IH]; intros g E.
  - injection E as <-. split; reflexivity.
  - destruct (iterate_cons _ _ _ _ E) as (g1 & E1 & E2).
    destruct (Iteration_frame _ _ _ E1) as (A1 & A2 & _).
    destruct (IH g1 E2) as (B1 & B2).
    rewrite B1, B2, A1, A2. split; reflexivity.
Qed.

(** X3.  No sequence of iterations, of any algorithms, writes the payoff
    matrix or the size: after the run every payoff of either player is what
    it was before. *)
Theorem X3_payoffs_immutable (algs : list Z) (g g' : MatrixGame) :
  iterate algs g = Some g' ->
  size g' = size g /\ payoffs g' = payoffs g /\
  forall p a b, GetPayoff g' p a b = GetPayoff g p a b.
Proof.
  intros E. destruct (iterate_frame algs g g' E) as (H1 & H2).
  split; [exact H2|]. split; [exact H1|].
  intros p a b. unfold GetPayoff. rewrite H1, H2. reflexivity.
Qed.

(** ** The iteration counter *)

Lemma wrap32_small (z : Z) :
  (- 2 ^ 31 <= z < 2 ^ 31)%Z -> wrap32 z = z.
Proof.
  intros H. unfold wrap32.
  change (2 ^ 32)%Z with 4294967296%Z in *.
  change (2 ^ 31)%Z with 2147483648%Z in *.
  rewrite Z.mod_small; lia.
Qed.

Lemma iterate_count (algs : list Z) (g g' : MatrixGame) :
  iterate algs g = Some g' ->
  (0 <= iterationCount g)%Z ->
  (iterationCount g + Z.of_nat (length algs) <= INT_MAX)%Z ->
  iterationCount g' = (iterationCount g + Z.of_nat (length algs))%Z.
Proof.
  unfold INT_MAX. change (2 ^ 31)%Z with 2147483648%Z.
  revert g. induction algs as [|alg rest IH]; intros g E H0 Hmax.
  - injection E as <-. simpl. lia.
  - destruct (iterate_cons _ _ _ _ E) as (g1 & E1 & E2).
    destruct (Iteration_frame _ _ _ E1) as (_ & _ & A).
    rewrite wrap32_small in A
      by (change (2 ^ 31)%Z with 2147483648%Z; simpl length in Hmax; lia).
    simpl length in *. rewrite (IH g1 E2) by lia. lia.
Qed.

(** X4.  [GetIterationCount] counts the calls of [Iteration]: after a run
    of [k] calls on a fresh game, with any selectors and [k] within the
    range of [int], it returns [k]. *)
Theorem X4_iteration_count (n : nat) (rnd : nat -> Q) (algs : list Z)
        (g : MatrixGame) :
  iterate algs (MatrixGame_new n rnd) = Some g ->
  (Z.of_nat (length algs) <= INT_MAX)%Z ->
  GetIterationCount g = Z.of_nat (length algs).
Proof.
  intros E H. unfold GetIterationCount.
  rewrite (iterate_count algs _ g E); simpl; lia.
Qed.

(** ** Fictitious Play and the regrets *)

(** X5.  Fictitious Play never writes a regret accumulator: a run of
    Fictitious Play iterations leaves both regret vectors as they were. *)
Theorem X5_FictitiousPlay_keeps_regrets (k : nat) (g g' : MatrixGame) :
  iterate (repeat 0%Z k) g = Some g' -> cfr g' = cfr g.
Proof.
  revert g. induction k as [|k IH]; intros g E.
  - injection E as <-. reflexivity.
  - destruct (iterate_cons _ _ _ _ E) as (g1 & E1 & E2).
    rewrite (IH g1 E2).
    change (Iteration 0 g) with (FictitiousPlay g) in E1.
    rewrite FictitiousPlay_run in E1.
    destruct (FictitiousPlay_player 0 (tick g)) as [[[] g0]|] eqn:E0;
      [|discriminate].
    destruct (FictitiousPlay_player_frame 0 _ _ E0) as (_ & _ & _ & A).
    destruct (FictitiousPlay_player_frame 1 _ _ E1) as (_ & _ & _ & B).
    rewrite B, A. reflexivity.
Qed.

(** ** Fictitious Play and [BestResponse] *)

Lemma for_range_rel {A B : Type} (R : A -> B -> Prop) (n : nat)
      (f : nat -> A -> A) (h : nat -> B -> B) (a : A) (b : B) :
  R a b ->
  (forall i x y, (i < n)%nat -> R x y -> R (f i x) (h i y)) ->
  R (for_range n f a) (for_range n h b).
Proof.
  intros H0 Hstep.
  assert (G : forall k, (k <= n)%nat -> R (for_range k f a) (for_range k h b)).
  { induction k as [|k IH]; intros Hk.
    - exact H0.
    - rewrite !for_range_S. apply Hstep; [lia | apply IH; lia]. }
  apply G. lia.
Qed.

(** The search of [FictitiousPlay(int)] and the loop of [BestResponse] keep
    the same [maxSum]. *)
Lemma best_action_value (g : MatrixGame) (p : Z) :
  fst (best_action g p) = BestResponse g p.
Proof.
  unfold best_action, BestResponse.
  apply (for_range_rel (fun (st : Q * Z) (m : Q) => fst st = m)).
  - reflexivity.
  - intros i st m _ <-. cbv zeta.
    destruct (Qltb (fst st) _); reflexivity.
Qed.

(** X9.  Fictitious Play plays a best response: the action whose cell it
    increments has exactly the expected payoff that [BestResponse] returns
    for that player in the state of the call. *)
Theorem X9_FictitiousPlay_plays_best_response (g : MatrixGame) (p : Z) :
  Inv g ->
  exists best g',
    FictitiousPlay_player p g = Some (tt, g') /\
    (best < size g)%nat /\
    nth best (sel p (strategy g')) 0 = nth best (sel p (strategy g)) 0 + 1 /\
    expected g p best = BestResponse g p.
Proof.
  intros HI.
  destruct (best_action_found g p HI) as (best & Hlt & Hb & Hm & _ & _).
  pose proof HI as (_ & Hsz & _). destruct (sel_length g p Hsz) as [Ls _].
  exists best. eexists. split; [|split; [exact Hlt|split]].
  - unfold FictitiousPlay_player. rewrite Hb, Nat2Z.id, Ls.
    rewrite (proj2 (Z.leb_le 0 (Z.of_nat best))) by lia.
    rewrite (proj2 (Nat.ltb_lt best (size g))) by exact Hlt.
    reflexivity.
  - simpl. rewrite sel_upd_same. apply nth_vset_same. lia.
  - rewrite <- Hm. apply best_action_value.
Qed.

(** ** The regrets of CFR and CFR+ *)

Lemma payoff_sum_le (g : MatrixGame) (p : Z) (w : list Q) (a : nat) :
  is_dist (size g) w ->
  (forall i, in_range (nth i (payoffs g) 0)) ->
  payoff_sum g p w a <= 1.
Proof.
  intros (_ & Hw & Hs) Hp. rewrite payoff_sum_rsum.
  apply convex_le; auto.
  intros b _. apply (GetPayoff_in_range g p a b Hp).
Qed.

Lemma cfu_of_bounds (g : MatrixGame) (p : Z) (a : nat) :
  Inv g -> -1 <= cfu_of g p a /\ cfu_of g p a <= 1.
Proof.
  intros (Hn & _ & Hp & _). unfold cfu_of. split.
  - apply payoff_sum_ge; auto. apply GetCurrentStrategy_dist, Hn.
  - apply payoff_sum_le; auto. apply GetCurrentStrategy_dist, Hn.
Qed.

Lemma ev_of_bounds (g : MatrixGame) (p : Z) :
  Inv g -> -1 <= ev_of g p /\ ev_of g p <= 1.
Proof.
  intros HI. pose proof HI as (Hn & _).
  destruct (GetCurrentStrategy_dist g p Hn) as (_ & Hw & Hs).
  unfold ev_of. split.
  - apply convex_ge; auto. intros a _. apply (cfu_of_bounds g p a HI).
  - apply convex_le; auto. intros a _. apply (cfu_of_bounds g p a HI).
Qed.

Lemma CFR_update_cfr_length (p : Z) (g : MatrixGame) :
  sized g -> length (sel p (cfr (CFR_update p g))) = size g.
Proof.
  intros Hsz. destruct (sel_length g p Hsz) as [_ Lr].
  unfold CFR_update. simpl. rewrite sel_upd_same.
  rewrite (length_for_vset
             (fun a r => nth a r 0 +
                (nth a (fst (cfu_ev g p (GetCurrentStrategy g p)
                                    (GetCurrentStrategy g (other p)))) 0 -
                 snd (cfu_ev g p (GetCurrentStrategy g p)
                             (GetCurrentStrategy g (other p)))))).
  exact Lr.
Qed.

Lemma CFRPlus_update_cfr_length (p : Z) (g : MatrixGame) :
  sized g -> length (sel p (cfr (CFRPlus_update p g))) = size g.
Proof.
  intros Hsz. destruct (sel_length g p Hsz) as [_ Lr].
  unfold CFRPlus_update. simpl. rewrite sel_upd_same.
  rewrite (length_for_vset
             (fun a r => fmax 0 (nth a r 0 +
                nth a (fst (cfu_ev g p (GetCurrentStrategy g p)
                                   (GetCurrentStrategy g (other p)))) 0 -
                snd (cfu_ev g p (GetCurrentStrategy g p)
                            (GetCurrentStrategy g (other p)))))).
  exact Lr.
Qed.

(** One update of a player moves each of its regret cells by at most 2. *)
Lemma CFR_update_cell_within (B : Q) (p : Z) (g : MatrixGame) (i : nat) :
  Inv g -> 0 <= B ->
  - B <= nth i (sel p (cfr g)) 0 /\ nth i (sel p (cfr g)) 0 <= B ->
  - (B + 2) <= nth i (sel p (cfr (CFR_update p g))) 0 /\
  nth i (sel p (cfr (CFR_update p g))) 0 <= B + 2.
Proof.
  intros HI HB [H1 H2]. pose proof HI as (_ & Hsz & _).
  destruct (Nat.lt_ge_cases i (size g)) as [Hi|Hi].
  - rewrite CFR_update_cfr by assumption.
    destruct (cfu_of_bounds g p i HI). destruct (ev_of_bounds g p HI).
    split; lra.
  - rewrite nth_overflow by (rewrite CFR_update_cfr_length; assumption).
    split; lra.
Qed.

Lemma CFRPlus_update_cell_within (B : Q) (p : Z) (g : MatrixGame) (i : nat) :
  Inv g -> 0 <= B ->
  - B <= nth i (sel p (cfr g)) 0 /\ nth i (sel p (cfr g)) 0 <= B ->
  - (B + 2) <= nth i (sel p (cfr (CFRPlus_update p g))) 0 /\
  nth i (sel p (cfr (CFRPlus_update p g))) 0 <= B + 2.
Proof.
  intros HI HB [H1 H2]. pose proof HI as (_ & Hsz & _).
  destruct (Nat.lt_ge_cases i (size g)) as [Hi|Hi].
  - rewrite CFRPlus_update_cfr by assumption.
    destruct (cfu_of_bounds g p i HI). destruct (ev_of_bounds g p HI).
    unfold fmax. destruct (Qltb 0 _); split; lra.
  - rewrite nth_overflow by (rewrite CFRPlus_update_cfr_length; assumption).
    split; lra.
Qed.

Lemma regrets_within_weaken (B B' : Q) (g : MatrixGame) :
  B <= B' -> regrets_within B g -> regrets_within B' g.
Proof.
  intros H [H0 H1]. split; intros i.
  - destruct (H0 i). split; lra.
  - destruct (H1 i). split; lra.
Qed.

Lemma Iteration_regrets_within (B : Q) (alg : Z) (g g' : MatrixGame) :
  Inv g -> 0 <= B -> regrets_within B g ->
  Iteration alg g = Some (tt, g') -> regrets_within (B + 2) g'.
Proof.
  intros HI HB [H0 H1].
  pose proof (Inv_tick g HI) as HI0.
  destruct (Iteration_cases alg) as [[_ E]|[[_ E]|(_ & _ & E)]]; rewrite E.
  - rewrite FictitiousPlay_run.
    destruct (FictitiousPlay_player 0 (tick g)) as [[[] g1]|] eqn:E1;
      [|discriminate].
    intros E2.
    destruct (FictitiousPlay_player_frame 0 _ _ E1) as (_ & _ & _ & A).
    destruct (FictitiousPlay_player_frame 1 _ _ E2) as (_ & _ & _ & C).
    apply (regrets_within_weaken B); [lra|].
    unfold regrets_within. rewrite C, A. split; assumption.
  - rewrite CFR_run. intros E1. injection E1 as <-.
    pose proof (CFR_update_Inv 0 _ HI0) as HI1.
    split; intros i.
    + change (fst (cfr (CFR_update 1 (CFR_update 0 (tick g)))))
        with (sel 0 (cfr (CFR_update 0 (tick g)))).
      apply (CFR_update_cell_within B 0 (tick g) i HI0 HB). apply H0.
    + change (snd (cfr (CFR_update 1 (CFR_update 0 (tick g)))))
        with (sel 1 (cfr (CFR_update 1 (CFR_update 0 (tick g))))).
      apply (CFR_update_cell_within B 1 _ i HI1 HB). apply H1.
  - rewrite CFRPlus_run. intros E1. injection E1 as <-.
    pose proof (CFRPlus_update_Inv 0 _ HI0) as HI1.
    split; intros i.
    + change (fst (cfr (CFRPlus_update 1 (CFRPlus_update 0 (tick g)))))
        with (sel 0 (cfr (CFRPlus_update 0 (tick g)))).
      apply (CFRPlus_update_cell_within B 0 (tick g) i HI0 HB). apply H0.
    + change (snd (cfr (CFRPlus_update 1 (CFRPlus_update 0 (tick g)))))
        with (sel 1 (cfr (CFRPlus_update 1 (CFRPlus_update 0 (tick g))))).
      apply (CFRPlus_update_cell_within B 1 _ i HI1 HB). apply H1.
Qed.

Lemma iterate_regrets_within (algs : list Z) (B : Q) (g g' : MatrixGame) :
  Inv g -> 0 <= B -> regrets_within B g ->
  iterate algs g = Some g' ->
  regrets_within (B + 2 * inject_Z (Z.of_nat (length algs))) g'.
Proof.
  revert B g. induction algs as [|alg rest IH]; intros B g HI HB HR E.
  - injection E as <-. apply (regrets_within_weaken B); [|exact HR].
    change (inject_Z (Z.of_nat (@length Z []))) with 0. lra.
  - destruct (iterate_cons _ _ _ _ E) as (g1 & E1 & E2).
    destruct (Iteration_Inv alg g HI) as (g1' & E1' & HI1).
    assert (g1' = g1) by congruence. subst g1'.
    pose proof (Iteration_regrets_within B alg g g1 HI HB HR E1) as HR1.
    assert (HB1 : 0 <= B + 2) by lra.
    pose proof (IH (B + 2) g1 HI1 HB1 HR1 E2) as HR'.
    apply (regrets_within_weaken
             (B + 2 + 2 * inject_Z (Z.of_nat (length rest)))); [|exact HR'].
    simpl length. rewrite Nat2Z.inj_succ. unfold Z.succ.
    rewrite inject_Z_plus. change (inject_Z 1) with 1. lra.
Qed.

(** X12.  The regrets grow at most linearly: after [k] iterations on a
    fresh game, of any algorithms, every regret cell of either player lies
    between [-2 k] and [2 k] (payoffs are drawn from [[-1, 1]], so one
    update moves a cell by at most 2). *)
Theorem X12_regrets_bounded_by_twice_iterations (n : nat) (rnd : nat -> Q)
        (algs : list Z) (g : MatrixGame) (p : Z) (i : nat) :
  (0 < n)%nat -> (forall j, in_range (rnd j)) ->
  iterate algs (MatrixGame_new n rnd) = Some g ->
  - (2 * inject_Z (Z.of_nat (length algs))) <= nth i (sel p (cfr g)) 0 /\
  nth i (sel p (cfr g)) 0 <= 2 * inject_Z (Z.of_nat (length algs)).
Proof.
  intros Hn Hr E.
  assert (H0 : regrets_within 0 (MatrixGame_new n rnd)).
  { split; intros j; simpl; rewrite nth_vnew; split; lra. }
  destruct (iterate_regrets_within algs 0 _ g
              (MatrixGame_new_Inv n rnd Hn Hr) (Qle_refl 0) H0 E) as [R0 R1].
  unfold sel. destruct (p =? 0)%Z.
  - destruct (R0 i). split; lra.
  - destruct (R1 i). split; lra.
Qed.

(** ** Bounds on the exploitability *)

Lemma expected_le (g : MatrixGame) (p : Z) (a : nat) :
  Inv g -> expected g p a <= 1.
Proof.
  intros (Hn & Hs & Hp & Hpos). unfold expected.
  apply payoff_sum_le; auto.
  apply GetNormalizedStrategy_dist; auto.
Qed.

Lemma BestResponse_bounds (g : MatrixGame) (p : Z) :
  Inv g -> -1 <= BestResponse g p /\ BestResponse g p <= 1.
Proof.
  intros HI. pose proof HI as (Hn & _). split.
  - apply Qle_trans with (expected g p 0).
    + apply expected_ge, HI.
    + apply BestResponse_upper, Hn.
  - destruct (BestResponse_attained g p) as (a & Ha & E).
    + exists O. split; [exact Hn|].
      pose proof (expected_ge g p 0 HI). pose proof DBL_MAX_below. lra.
    + rewrite E. apply expected_le, HI.
Qed.

Lemma CreateRandom_all (P : Q -> Prop) (n : nat) (rnd : nat -> Q)
      (pay : list Q) :
  (forall k, P (rnd k)) ->
  (forall i, P (nth i pay 0)) ->
  forall i, P (nth i (CreateRandom n rnd pay) 0).
Proof.
  intros Hr Hp. unfold CreateRandom.
  apply (for_range_inv (fun _ st => forall i, P (nth i (fst st) 0))); auto.
  intros a st _ Ha.
  apply (for_range_inv (fun _ st' => forall i, P (nth i (fst st') 0))); auto.
  intros b st' _ Hb i. simpl.
  destruct (nth_vset_cases (a * n + b) i (rnd (snd st')) 0 (fst st')) as [E|E];
    rewrite E; auto.
Qed.

(** X14.  When every draw is zero the game is the all-zero matrix, and the
    exploitability is 0 in the fresh state and after every run, of any
    algorithms and any length. *)
Theorem X14_zero_game_exploitability (n : nat) (rnd : nat -> Q)
        (algs : list Z) (g : MatrixGame) :
  (0 < n)%nat -> (forall k, rnd k == 0) ->
  iterate algs (MatrixGame_new n rnd) = Some g ->
  GetExploitability g == 0.
Proof.
  intros Hn Hz E.
  assert (Hr : forall k, in_range (rnd k)).
  { intros k. unfold in_range. rewrite (Hz k). split; lra. }
  pose proof (iterate_reaches_Inv algs _ g (MatrixGame_new_Inv n rnd Hn Hr) E)
    as HI.
  destruct (iterate_frame algs _ g E) as (Hpay & _).
  assert (Hcells : forall i, nth i (payoffs g) 0 == 0).
  { intros i. rewrite Hpay. simpl.
    apply (CreateRandom_all (fun x => x == 0)); [exact Hz|].
    intros j. rewrite nth_vnew. reflexivity. }
  assert (Hexp : forall p a, expected g p a == 0).
  { intros p a. unfold expected. rewrite payoff_sum_rsum.
    apply rsum_all_zero. intros b _. unfold GetPayoff.
    destruct (p =? 0)%Z; rewrite Hcells; ring. }
  assert (Hbr : forall p, BestResponse g p == 0).
  { intros p. destruct (BestResponse_attained g p) as (a & _ & Ea).
    - exists O. split; [apply HI|].
      pose proof (expected_ge g p 0 HI). pose proof DBL_MAX_below. lra.
    - rewrite Ea. apply Hexp. }
  unfold GetExploitability. rewrite (Hbr 0%Z), (Hbr 1%Z). reflexivity.
Qed.

(** ** A game without actions *)

(** X16.  With [size = 0] no loop body runs: [BestResponse] returns its
    initial [-DBL_MAX], the exploitability is negative, and the search of
    Fictitious Play ends with [bestAction = -1], so that its write
    [strategy[player][-1]++] is out of bounds. *)
Theorem X16_empty_game (g : MatrixGame) (p : Z) :
  size g = O ->
  BestResponse g p = - DBL_MAX /\
  GetExploitability g < 0 /\
  snd (best_action g p) = (-1)%Z /\
  FictitiousPlay_player p g = None /\
  exec (Iteration 0) g = None.
Proof.
  intros H.
  assert (B : forall q, BestResponse g q = - DBL_MAX).
  { intros q. unfold BestResponse. rewrite H. reflexivity. }
  assert (A : forall q g0, size g0 = O -> snd (best_action g0 q) = (-1)%Z).
  { intros q g0 H0. unfold best_action. rewrite H0. reflexivity. }
  assert (F : forall q g0, size g0 = O -> FictitiousPlay_player q g0 = None).
  { intros q g0 H0. unfold FictitiousPlay_player. rewrite (A q g0 H0).
    reflexivity. }
  split; [apply B|]. split; [|split; [apply A, H|split; [apply F, H|]]].
  - unfold GetExploitability. rewrite !B. reflexivity.
  - unfold exec. change (Iteration 0 g) with (FictitiousPlay g).
    rewrite FictitiousPlay_run. rewrite (F 0%Z (tick g) H). reflexivity.
Qed.

(** ** The driver [Run] *)

Lemma iterate_repeat_S (alg : Z) (j : nat) (g g1 : MatrixGame) :
  Iteration alg g = Some (tt, g1) ->
  iterate (repeat alg (S j)) g = iterate (repeat alg j) g1.
Proof.
  intros E. cbn [repeat iterate]. unfold exec. rewrite E. reflexivity.
Qed.

Lemma Run_loop_returned (fuel : nat) (alg : Z) (eps : Q) (g g' : MatrixGame) :
  Run_loop fuel alg eps g = Returned g' ->
  exists j, (1 <= j <= fuel)%nat /\
    iterate (repeat alg j) g = Some g' /\
    GetExploitability g' <= eps /\
    forall i gi, (1 <= i < j)%nat ->
      iterate (repeat alg i) g = Some gi -> eps < GetExploitability gi.
Proof.
  revert g. induction fuel as [|fuel IH]; intros g E; [discriminate|].
  cbn [Run_loop] in E.
  destruct (Iteration alg g) as [[[] g1]|] eqn:E1; [|discriminate].
  cbv zeta in E. destruct (Qltb eps (GetExploitability g1)) eqn:Ee.
  - destruct (IH g1 E) as (j & Hj & Hrun & Hle & Hmin).
    exists (S j). split; [lia|]. split.
    + rewrite (iterate_repeat_S alg j g g1 E1). exact Hrun.
    + split; [exact Hle|]. intros i gi Hi Hgi.
      destruct i as [|i]; [lia|].
      rewrite (iterate_repeat_S alg i g g1 E1) in Hgi.
      destruct i as [|i].
      * injection Hgi as <-. apply Qltb_lt, Ee.
      * apply (Hmin (S i) gi); [lia | exact Hgi].
  - injection E as <-. exists 1%nat. split; [lia|]. split.
    + rewrite (iterate_repeat_S alg 0 g g1 E1). reflexivity.
    + split; [apply Qltb_ge, Ee|]. intros i gi Hi. lia.
Qed.

(** X17.  When [Run] returns [k], [k] is at least 1 and is the number of
    iterations it made: after [k] iterations of the algorithm on the fresh
    game the exploitability is at most [epsilon], and after each smaller
    positive number of iterations it was above [epsilon].  The fresh game
    itself is never tested (the loop is a do-while). *)
Theorem X17_Run_returns_first_converged_iteration (fuel : nat) (alg : Z)
        (n : nat) (eps : Q) (rnd : nat -> Q) (k : Z) :
  (Z.of_nat fuel <= INT_MAX)%Z ->
  Run fuel alg n eps rnd = Returned k ->
  exists j g,
    k = Z.of_nat j /\ (1 <= j <= fuel)%nat /\
    iterate (repeat alg j) (MatrixGame_new n rnd) = Some g /\
    GetExploitability g <= eps /\
    forall i gi, (1 <= i < j)%nat ->
      iterate (repeat alg i) (MatrixGame_new n rnd) = Some gi ->
      eps < GetExploitability gi.
Proof.
  intros Hf E. unfold Run in E.
  destruct (Run_loop fuel alg eps (MatrixGame_new n rnd)) as [g| |] eqn:El;
    try discriminate.
  injection E as <-.
  destruct (Run_loop_returned fuel alg eps _ g El) as (j & Hj & Hrun & Hle & Hmin).
  exists j, g. split; [|auto].
  unfold GetIterationCount.
  rewrite (iterate_count (repeat alg j) _ g Hrun);
    rewrite ?repeat_length; simpl; lia.
Qed.

(** X18.  With [epsilon >= 1] (the largest value the command line
    accepts) [Run] stops after its first iteration and returns 1, for
    every algorithm and every valid game: at least one action,
    [size * size] within [int], draws in range. *)
Theorem X18_Run_large_epsilon_returns_one (fuel : nat) (alg : Z) (n : nat)
        (eps : Q) (rnd : nat -> Q) :
  (0 < fuel)%nat -> (0 < n)%nat -> (Z.of_nat (n * n) <= INT_MAX)%Z ->
  (forall j, in_range (rnd j)) ->
  1 <= eps ->
  Run fuel alg n eps rnd = Returned 1%Z.
Proof.
  intros Hf Hn _ Hr He.
  pose proof (MatrixGame_new_Inv n rnd Hn Hr) as HI.
  destruct (Iteration_Inv alg _ HI) as (g1 & E1 & HI1).
  destruct fuel as [|fuel]; [lia|].
  unfold Run. cbn [Run_loop]. rewrite E1. cbv zeta.
  assert (Hle : GetExploitability g1 <= eps).
  { unfold GetExploitability.
    destruct (BestResponse_bounds g1 0 HI1). destruct (BestResponse_bounds g1 1 HI1).
    apply Qle_shift_div_r; lra. }
  apply Qltb_ge in Hle. rewrite Hle.
  unfold GetIterationCount.
  destruct (Iteration_frame _ _ _ E1) as (_ & _ & C). rewrite C.
  reflexivity.
Qed.

Lemma Run_loop_defined (fuel : nat) (alg : Z) (eps : Q) (g : MatrixGame) :
  Inv g -> Run_loop fuel alg eps g <> Undefined.
Proof.
  revert g. induction fuel as [|fuel IH]; intros g HI; [discriminate|].
  cbn [Run_loop].
  destruct (Iteration_Inv alg g HI) as (g1 & E1 & HI1). rewrite E1. cbv zeta.
  destruct (Qltb eps (GetExploitability g1)); [apply IH, HI1 | discriminate].
Qed.

(** X19.  On a valid game (at least one action, [size * size] within
    [int], draws in range) [Run] does not leave defined behaviour within
    [INT_MAX] rounds, whatever the algorithm and [epsilon]: every write of
    Fictitious Play lands inside its vector, and the counter stays within
    [int]. *)
Theorem X19_Run_stays_defined (fuel : nat) (alg : Z) (n : nat)
        (eps : Q) (rnd : nat -> Q) :
  (0 < n)%nat -> (Z.of_nat (n * n) <= INT_MAX)%Z ->
  (forall j, in_range (rnd j)) -> (Z.of_nat fuel <= INT_MAX)%Z ->
  Run fuel alg n eps rnd <> Undefined.
Proof.
  intros Hn _ Hr _.
  pose proof (MatrixGame_new_Inv n rnd Hn Hr) as HI.
  pose proof (Run_loop_defined fuel alg eps _ HI) as Hd.
  unfold Run.
  destruct (Run_loop fuel alg eps (MatrixGame_new n rnd));
    [discriminate | contradiction | discriminate].
Qed.

(** ** The statistics of [RunMany] *)

Lemma Run_returned_positive (fuel : nat) (alg : Z) (n : nat) (eps : Q)
      (rnd : nat -> Q) (k : Z) :
  (Z.of_nat fuel <= INT_MAX)%Z ->
  Run fuel alg n eps rnd = Returned k -> (1 <= k)%Z.
Proof.
  intros Hf E. unfold Run in E.
  destruct (Run_loop fuel alg eps (MatrixGame_new n rnd)) as [g| |] eqn:El;
    try discriminate.
  injection E as <-.
  destruct (Run_loop_returned fuel alg eps _ g El) as (j & Hj & Hrun & _).
  unfold GetIterationCount.
  rewrite (iterate_count (repeat alg j) _ g Hrun);
    rewrite ?repeat_length; simpl; lia.
Qed.

Lemma RunMany_loop_inv (fuel runs : nat) (alg : Z) (n : nat) (eps : Q)
      (rnd : nat -> Q) :
  match RunMany_loop fuel runs alg n eps rnd with
  | Returned (mn, mx, sum) =>
      of_int mn * inject_Z (Z.of_nat runs) <= sum /\
      sum <= of_int mx * inject_Z (Z.of_nat runs) /\
      ((0 < runs)%nat -> (mn <= mx)%Z) /\
      ((Z.of_nat fuel <= INT_MAX)%Z -> (1 <= mn)%Z)
  | _ => True
  end.
Proof.
  unfold RunMany_loop.
  apply (for_range_inv
           (fun i (st : outcome (Z * Z * Q)) =>
              match st with
              | Returned (mn, mx, sum) =>
                  of_int mn * inject_Z (Z.of_nat i) <= sum /\
                  sum <= of_int mx * inject_Z (Z.of_nat i) /\
                  ((0 < i)%nat -> (mn <= mx)%Z) /\
                  ((Z.of_nat fuel <= INT_MAX)%Z -> (1 <= mn)%Z)
              | _ => True
              end)).
  - simpl. change (inject_Z 0) with 0. split; [lra|]. split; [lra|].
    split; [lia|]. intros _. unfold INT_MAX. simpl. lia.
  - intros i st Hi Hst. destruct st as [[[mn mx] sum]| |]; auto.
    destruct (Run fuel alg n eps (fun k => rnd (i * (n * n) + k)%nat))
      as [nit| |] eqn:ER; auto.
    destruct Hst as (H1 & H2 & _ & H4).
    rewrite Nat2Z.inj_succ. unfold Z.succ. rewrite inject_Z_plus.
    change (inject_Z 1) with 1.
    assert (HI : 0 <= inject_Z (Z.of_nat i)).
    { change 0 with (inject_Z 0). rewrite <- Zle_Qle. lia. }
    assert (A1 : of_int (Z.min mn nit) <= of_int mn)
      by (unfold of_int; rewrite <- Zle_Qle; lia).
    assert (A2 : of_int (Z.min mn nit) <= of_int nit)
      by (unfold of_int; rewrite <- Zle_Qle; lia).
    assert (A3 : of_int mx <= of_int (Z.max mx nit))
      by (unfold of_int; rewrite <- Zle_Qle; lia).
    assert (A4 : of_int nit <= of_int (Z.max mx nit))
      by (unfold of_int; rewrite <- Zle_Qle; lia).
    split; [nra|]. split; [nra|]. split; [intros _; lia|].
    intros Hf. specialize (H4 Hf).
    pose proof (Run_returned_positive fuel alg n eps _ nit Hf ER). lia.
Qed.

(** X20.  When [RunMany] gets through at least one run, the three numbers
    it prints are ordered: [min <= max], and the average of the iteration
    counts lies between them; and [min] is at least 1, every run making at
    least one iteration. *)
Theorem X20_RunMany_statistics_ordered (fuel runs : nat) (alg : Z) (n : nat)
        (eps : Q) (rnd : nat -> Q) (mn mx : Z) (avg : Q) :
  (0 < runs)%nat -> (Z.of_nat fuel <= INT_MAX)%Z ->
  RunMany fuel runs alg n eps rnd = Returned (mn, mx, avg) ->
  (1 <= mn)%Z /\ (mn <= mx)%Z /\ of_int mn <= avg /\ avg <= of_int mx.
Proof.
  intros Hruns Hf E. unfold RunMany in E.
  pose proof (RunMany_loop_inv fuel runs alg n eps rnd) as H.
  destruct (RunMany_loop fuel runs alg n eps rnd) as [[[mn' mx'] sum]| |];
    try discriminate.
  injection E as <- <- <-. destruct H as (H1 & H2 & H3 & H4).
  assert (HR : 0 < of_int (Z.of_nat runs)) by (apply size_to_double_pos, Hruns).
  unfold of_int in *.
  split; [apply H4, Hf|]. split; [apply H3, Hruns|]. split.
  - apply Qle_shift_div_l; assumption.
  - apply Qle_shift_div_r; assumption.
Qed.

(** * Instances of the further properties *)

Ltac draws_w_in_range :=
  let k := fresh "k" in
  intros k; do 3 (destruct k as [|k]; [unfold in_range; simpl; lra|]);
  unfold in_range; simpl; lra.

Lemma X1_constructor_state_witness :
  (Z.of_nat (2 * 2) <= INT_MAX)%Z /\
  length (payoffs (MatrixGame_new 2 rnd_w)) = 4%nat.
Proof.
  assert (Hb : (Z.of_nat (2 * 2) <= INT_MAX)%Z) by (vm_compute; discriminate).
  split; [exact Hb|].
  destruct (X1_constructor_state 2 rnd_w Hb) as (_ & _ & H & _).
  exact H.
Defined.

Lemma X2_fresh_strategies_uniform_witness :
  (1 < 2)%nat /\
  nth 1 (GetNormalizedStrategy (MatrixGame_new 2 rnd_w) 0) 0 =
    1 / of_int (Z.of_nat 2) /\
  nth 1 (GetCurrentStrategy (MatrixGame_new 2 rnd_w) 0) 0 =
    1 / of_int (Z.of_nat 2).
Proof.
  assert (H : (1 < 2)%nat) by lia.
  split; [exact H|]. apply (X2_fresh_strategies_uniform 2 rnd_w 0 1 H).
Defined.

Lemma X3_payoffs_immutable_witness :
  iterate [1%Z] g_c1 = Some g_cfr1 /\ payoffs g_cfr1 = payoffs g_c1.
Proof.
  assert (E : iterate [1%Z] g_c1 = Some g_cfr1) by reflexivity.
  split; [exact E|].
  apply (X3_payoffs_immutable [1%Z] g_c1 g_cfr1 E).
Defined.

Lemma X4_iteration_count_witness :
  iterate [1%Z] (MatrixGame_new 2 rnd_c1) = Some g_cfr1 /\
  GetIterationCount g_cfr1 = 1%Z.
Proof.
  assert (E : iterate [1%Z] (MatrixGame_new 2 rnd_c1) = Some g_cfr1)
    by reflexivity.
  split; [exact E|].
  apply (X4_iteration_count 2 rnd_c1 [1%Z] g_cfr1 E).
  unfold INT_MAX. simpl. lia.
Defined.

Lemma X5_FictitiousPlay_keeps_regrets_witness :
  exists g', iterate (repeat 0%Z 2) g_c1 = Some g' /\ cfr g' = cfr g_c1.
Proof.
  destruct (iterate (repeat 0%Z 2) g_c1) as [g'|] eqn:E.
  - exists g'. split; [reflexivity|].
    apply (X5_FictitiousPlay_keeps_regrets 2 g_c1 g' E).
  - vm_compute in E. discriminate.
Defined.

Lemma X9_FictitiousPlay_plays_best_response_witness :
  Inv g_c1 /\
  exists best g',
    FictitiousPlay_player 1 g_c1 = Some (tt, g') /\
    expected g_c1 1 best = BestResponse g_c1 1.
Proof.
  assert (HI : Inv g_c1) by fresh_game_inv.
  split; [exact HI|].
  destruct (X9_FictitiousPlay_plays_best_response g_c1 1 HI)
    as (best & g' & E & _ & _ & H).
  exists best, g'. split; [exact E | exact H].
Defined.

Lemma X12_regrets_bounded_by_twice_iterations_witness :
  iterate [1%Z] (MatrixGame_new 2 rnd_c1) = Some g_cfr1 /\
  nth 0 (sel 1 (cfr g_cfr1)) 0 <= 2 * inject_Z (Z.of_nat (length [1%Z])).
Proof.
  assert (E : iterate [1%Z] (MatrixGame_new 2 rnd_c1) = Some g_cfr1)
    by reflexivity.
  split; [exact E|].
  apply (X12_regrets_bounded_by_twice_iterations 2 rnd_c1 [1%Z] g_cfr1 1 0).
  - lia.
  - draws_in_range.
  - exact E.
Defined.

Lemma X14_zero_game_exploitability_witness :
  exists g, iterate [0%Z; 2%Z] (MatrixGame_new 3 (fun _ => 0)) = Some g /\
            GetExploitability g == 0.
Proof.
  destruct (iterate [0%Z; 2%Z] (MatrixGame_new 3 (fun _ => 0))) as [g|] eqn:E.
  - exists g. split; [reflexivity|].
    apply (X14_zero_game_exploitability 3 (fun _ => 0) [0%Z; 2%Z] g).
    + lia.
    + intros k. reflexivity.
    + exact E.
  - vm_compute in E. discriminate.
Defined.

Lemma X16_empty_game_witness :
  size (MatrixGame_new 0 rnd_c1) = O /\
  FictitiousPlay_player 0 (MatrixGame_new 0 rnd_c1) = None.
Proof.
  assert (H : size (MatrixGame_new 0 rnd_c1) = O) by reflexivity.
  split; [exact H|].
  apply (X16_empty_game (MatrixGame_new 0 rnd_c1) 0 H).
Defined.

Lemma X17_Run_returns_first_converged_iteration_witness :
  Run 5 0 2 (1 # 10) rnd_w = Returned 3%Z /\
  exists j g,
    3%Z = Z.of_nat j /\
    iterate (repeat 0%Z j) (MatrixGame_new 2 rnd_w) = Some g /\
    GetExploitability g <= 1 # 10.
Proof.
  assert (E : Run 5 0 2 (1 # 10) rnd_w = Returned 3%Z)
    by (vm_compute; reflexivity).
  split; [exact E|].
  assert (Hf : (Z.of_nat 5 <= INT_MAX)%Z) by (unfold INT_MAX; simpl; lia).
  destruct (X17_Run_returns_first_converged_iteration
              5 0 2 (1 # 10) rnd_w 3 Hf E) as (j & g & H1 & _ & H2 & H3 & _).
  exists j, g. split; [exact H1|]. split; [exact H2 | exact H3].
Defined.

Lemma X18_Run_large_epsilon_returns_one_witness :
  (0 < 1)%nat /\ (Z.of_nat (2 * 2) <= INT_MAX)%Z /\ 1 <= 1 /\
  Run 1 0 2 1 rnd_w = Returned 1%Z.
Proof.
  assert (Hf : (0 < 1)%nat) by lia.
  assert (Hb : (Z.of_nat (2 * 2) <= INT_MAX)%Z) by (vm_compute; discriminate).
  assert (He : 1 <= 1) by lra.
  split; [exact Hf|]. split; [exact Hb|]. split; [exact He|].
  apply (X18_Run_large_epsilon_returns_one 1 0 2 1 rnd_w Hf).
  - lia.
  - exact Hb.
  - draws_w_in_range.
  - exact He.
Defined.

Lemma X19_Run_stays_defined_witness :
  (Z.of_nat (2 * 2) <= INT_MAX)%Z /\ (Z.of_nat 3 <= INT_MAX)%Z /\
  Run 3 0 2 (1 # 10) rnd_w <> Undefined.
Proof.
  assert (Hb : (Z.of_nat (2 * 2) <= INT_MAX)%Z) by (vm_compute; discriminate).
  assert (Hf : (Z.of_nat 3 <= INT_MAX)%Z) by (vm_compute; discriminate).
  split; [exact Hb|]. split; [exact Hf|].
  apply (X19_Run_stays_defined 3 0 2 (1 # 10) rnd_w).
  - lia.
  - exact Hb.
  - draws_w_in_range.
  - exact Hf.
Defined.

Lemma X20_RunMany_statistics_ordered_witness :
  RunMany 3 2 0 2 (1 # 10) rnd_w = Returned (1%Z, 3%Z, 4 # 2) /\
  (1 <= 1)%Z /\ (1 <= 3)%Z /\ of_int 1 <= 4 # 2 /\ 4 # 2 <= of_int 3.
Proof.
  assert (E : RunMany 3 2 0 2 (1 # 10) rnd_w = Returned (1%Z, 3%Z, 4 # 2))
    by (vm_compute; reflexivity).
  split; [exact E|].
  apply (X20_RunMany_statistics_ordered 3 2 0 2 (1 # 10) rnd_w 1 3 (4 # 2)).
  - lia.
  - unfold INT_MAX. simpl. lia.
  - exact E.
Defined.
